(** * RangeMap: range-indexed remapping of a fixed-width key space

    Shallow embedding of [pkg/sfu/utils/rangemap.go] and the properties of
    its operations.

    Conventions of the embedding:
    - a value of Go type [uint32] or [uint64] is a [Z] in [0, 2^W); every
      arithmetic operation of the source on such values is followed by an
      explicit [wrap] (reduction modulo [2^W]); comparisons are the plain
      comparisons of [Z], as Go compares unsigned integers;
    - Go [int] (slice lengths, indices, [size]) is a [Z] in [-2^63, 2^63),
      the width of [int] on the target of [build.cmd] (GOARCH=amd64); the
      conversions of [NewRangeMap] through [float64] are written out; the
      additions and subtractions of [prune] are written without wrap-around,
      which gives the result of Go for every capacity that [NewRangeMap] can
      store ([prune_wrapping_agrees] below);
    - a run-time panic (index or slice bound out of range) is [None];
      a method that mutates its receiver returns the new receiver. *)

From Stdlib Require Import ZArith Lia Bool.
From stdpp Require Import base option list.

Local Open Scope Z_scope.

(** ** Data model *)

(** The type sets [rangeType] and [valueType] are both [uint32 | uint64]. *)
Inductive uintType : Set := U32 | U64.

(** [unsafe.Sizeof] of a variable of the type, in bytes. *)
Definition sizeOf (t : uintType) : Z :=
  match t with U32 => 4 | U64 => 8 end.

Definition modulus (t : uintType) : Z := 2 ^ (sizeOf t * 8).

(** Wrap-around of the unsigned arithmetic of type [t]; also the conversion
    [VT(x)] of an unsigned value to type [t] (truncation or zero extension). *)
Definition wrap (t : uintType) (x : Z) : Z := x mod modulus t.

Definition in_range (t : uintType) (x : Z) : Prop := 0 <= x < modulus t.

Inductive error : Set :=
| errReversedOrder
| errKeyNotFound
| errKeyTooOld
| errKeyExcluded.

(** [rangeVal[RT, VT]]; the field [end] is spelled [end_]. *)
Record rangeVal : Set := mkRangeVal { start : Z; end_ : Z; value : Z }.

(** [RangeMap[RT, VT]]; the type parameters are kept as indices of the
    record, they select the wrap-around of keys and values. *)
Record RangeMap (RT VT : uintType) : Set := mkRangeMap {
  halfRange : Z;
  size : Z;
  ranges : list rangeVal
}.

Arguments mkRangeMap {RT VT} _ _ _.
Arguments halfRange {RT VT} _.
Arguments size {RT VT} _.
Arguments ranges {RT VT} _.

Definition minRanges : Z := 1.

(** ** The type [int] *)

Definition minInt : Z := - 2 ^ 63.
Definition maxInt : Z := 2 ^ 63 - 1.

(** Wrap-around of the arithmetic of [int] (two's complement, 64 bits). *)
Definition wrap_int (x : Z) : Z := (x - minInt) mod 2 ^ 64 + minInt.

(** [float64(n)] for an [int] [n]: the nearest number with a significand
    of 53 bits, ties going to the even significand.  The result is an
    integer and is given as such.  With [2^l <= |n| < 2^(l+1)] and
    [e = l - 52], it is a multiple [q' * 2^e] with [2^52 <= q' <= 2^53]. *)
Definition float64_of_int (n : Z) : Z :=
  if Z.abs n <=? 2 ^ 53 then n
  else
    let e := Z.log2 (Z.abs n) - 52 in
    let q := Z.abs n / 2 ^ e in
    let rem := Z.abs n mod 2 ^ e in
    let q' :=
      if (2 * rem >? 2 ^ e) || ((2 * rem =? 2 ^ e) && Z.odd q)
      then q + 1 else q in
    Z.sgn n * (q' * 2 ^ e).

(** [int(f)] for a [float64] [f] with an integral value.  Outside of the
    range of [int] the result is left to the implementation by the language;
    on amd64 the conversion instruction gives the smallest [int]. *)
Definition int_of_float64 (f : Z) : Z :=
  if (minInt <=? f) && (f <=? maxInt) then f else minInt.

Arguments float64_of_int : simpl never.
Arguments int_of_float64 : simpl never.

(** ** Slices *)

(** [len(s)] as an [int]. *)
Definition len {A} (s : list A) : Z := Z.of_nat (length s).

(** [s[i]]: panics unless [0 <= i < len(s)]. *)
Definition index {A} (s : list A) (i : Z) : option A :=
  if 0 <=? i then s !! Z.to_nat i else None.

(** [s[i] = x] through a pointer [&s[i]] obtained by a successful [index]. *)
Definition store {A} (s : list A) (i : Z) (x : A) : list A :=
  <[Z.to_nat i := x]> s.

(** [s[lo:]]: panics unless [0 <= lo <= len(s)]. *)
Definition slice_from {A} (s : list A) (lo : Z) : option (list A) :=
  if (0 <=? lo) && (lo <=? len s) then Some (drop (Z.to_nat lo) s) else None.

(** ** Operations *)

Section Operations.
Context {RT VT : uintType}.
Implicit Type r : RangeMap RT VT.

Definition set_ranges r (rs : list rangeVal) : RangeMap RT VT :=
  {| halfRange := halfRange r; size := size r; ranges := rs |}.

Definition initRanges r (val : Z) : RangeMap RT VT :=
  set_ranges r [ {| start := 0; end_ := 0; value := val |} ].

Definition ClearAndResetValue r (val : Z) : RangeMap RT VT :=
  initRanges r val.

Definition DecValue r (dec : Z) : option (RangeMap RT VT) :=
  let i := len (ranges r) - 1 in
  lr ← index (ranges r) i;
  Some (set_ranges r
          (store (ranges r) i
             {| start := start lr; end_ := end_ lr;
                value := wrap VT (value lr - dec) |})).

Definition prune r : option (RangeMap RT VT) :=
  if len (ranges r) >? size r + 1 then
    rs ← slice_from (ranges r) (len (ranges r) - size r - 1);
    Some (set_ranges r rs)
  else Some r.

(** [prune] with the wrap-around of [r.size+1] and of
    [len(r.ranges)-r.size-1] written out. *)
Definition prune_wrapping r : option (RangeMap RT VT) :=
  if len (ranges r) >? wrap_int (size r + 1) then
    rs ← slice_from (ranges r)
           (wrap_int (wrap_int (len (ranges r) - size r) - 1));
    Some (set_ranges r rs)
  else Some r.

Definition ExcludeRange r (startInclusive endExclusive : Z)
  : option (RangeMap RT VT * option error) :=
  if (endExclusive =? startInclusive)
     || (wrap RT (endExclusive - startInclusive) >? halfRange r)
  then Some (r, Some errReversedOrder)
  else
    let i := len (ranges r) - 1 in
    lr ← index (ranges r) i;
    if start lr >? startInclusive then Some (r, Some errReversedOrder)
    else
      let newValue :=
        wrap VT
          (value lr + wrap VT (wrap RT (endExclusive - startInclusive))) in
      if start lr =? startInclusive then
        Some (set_ranges r
                (store (ranges r) i
                   {| start := endExclusive; end_ := end_ lr;
                      value := newValue |}),
              None)
      else
        let closed :=
          store (ranges r) i
            {| start := start lr; end_ := wrap RT (startInclusive - 1);
               value := value lr |} in
        r' ← prune (set_ranges r
                      (closed ++ [ {| start := endExclusive; end_ := 0;
                                      value := newValue |} ]));
        Some (r', None).

(** The loop of [GetValue]: [scan r key numRanges n] runs the iterations
    [idx = n - 1, n - 2, ..., 0] and then the final [return]. *)
Fixpoint scan r (key numRanges : Z) (n : nat) : option (Z * option error) :=
  match n with
  | O => Some (0, Some errKeyNotFound)
  | S n' =>
      let idx := Z.of_nat n' in
      rv ← index (ranges r) idx;
      if negb (idx =? numRanges - 1)
         && (wrap RT (key - start rv) <? halfRange r)
         && (wrap RT (end_ rv - key) <? halfRange r)
      then Some (value rv, None)
      else if idx >? 0 then
        rvPrev ← index (ranges r) (idx - 1);
        let beforeDiff := wrap RT (key - end_ rvPrev) in
        let afterDiff := wrap RT (start rv - key) in
        if (beforeDiff >? 0) && (beforeDiff <? halfRange r)
           && (afterDiff >? 0) && (afterDiff <? halfRange r)
        then Some (0, Some errKeyExcluded)
        else scan r key numRanges n'
      else scan r key numRanges n'
  end.

Definition GetValue r (key : Z) : option (Z * option error) :=
  let numRanges := len (ranges r) in
  if negb (numRanges =? 0) then
    lr ← index (ranges r) (numRanges - 1);
    if key >=? start lr then Some (value lr, None)
    else
      r0 ← index (ranges r) 0;
      if key <? start r0 then Some (0, Some errKeyTooOld)
      else scan r key numRanges (Z.to_nat numRanges)
  else scan r key numRanges (Z.to_nat numRanges).

End Operations.

(** [NewRangeMap[RT, VT](size)].  The capacity goes through [float64]:
    [int(math.Max(float64(size), float64(minRanges)))]; [math.Max] of two
    finite numbers is the larger one. *)
Definition NewRangeMap (RT VT : uintType) (size : Z) : RangeMap RT VT :=
  initRanges
    {| halfRange := Z.shiftl 1 (sizeOf RT * 8 - 1);
       size := int_of_float64
                 (Z.max (float64_of_int size) (float64_of_int minRanges));
       ranges := [] |} 0.

(** An [int] in the range where every integer is a [float64]. *)
Definition exact_float64 (n : Z) : Prop := Z.abs n <= 2 ^ 53.

(** ** Sequences of calls *)

Inductive op : Set :=
| OpReset (val : Z)
| OpDec (dec : Z)
| OpExclude (startInclusive endExclusive : Z)
| OpGet (key : Z).

(** Arguments of a call are values of the Go types of the parameters. *)
Definition wf_op (RT VT : uintType) (o : op) : Prop :=
  match o with
  | OpReset val => in_range VT val
  | OpDec dec => in_range VT dec
  | OpExclude s e => in_range RT s /\ in_range RT e
  | OpGet key => in_range RT key
  end.

Section Runs.
Context {RT VT : uintType}.
Implicit Type r : RangeMap RT VT.

(** One call: the receiver afterwards and the error returned, if any. *)
Definition apply_op r (o : op) : option (RangeMap RT VT * option error) :=
  match o with
  | OpReset val => Some (ClearAndResetValue r val, None)
  | OpDec dec => r' ← DecValue r dec; Some (r', None)
  | OpExclude s e => ExcludeRange r s e
  | OpGet key => res ← GetValue r key; Some (r, snd res)
  end.

(** All calls in order, whatever they return; [None] when one panics. *)
Fixpoint run r (ops : list op) : option (RangeMap RT VT) :=
  match ops with
  | [] => Some r
  | o :: ops' => res ← apply_op r o; run (fst res) ops'
  end.

(** All calls in order, each of them returning no error. *)
Fixpoint run_ok r (ops : list op) : option (RangeMap RT VT) :=
  match ops with
  | [] => Some r
  | o :: ops' =>
      res ← apply_op r o;
      match snd res with
      | None => run_ok (fst res) ops'
      | Some _ => None
      end
  end.

End Runs.

(** ** Relations between consecutive ranges *)

(** [chain R s]: every element of [s] is related by [R] to its successor. *)
Fixpoint chain {A} (R : A -> A -> Prop) (s : list A) : Prop :=
  match s with
  | [] => True
  | a :: tl => match tl with [] => True | b :: _ => R a b end /\ chain R tl
  end.

(** A closed range [a] followed by [b]: [a] is the interval
    [start a .. end_ a] of plain integers, wholly below the start of [b]. *)
Definition before (a b : rangeVal) : Prop :=
  start a <= end_ a /\ end_ a < start b.


(** The closed range [a] holds at most [half] keys and fewer than [half]
    keys are excluded between it and its successor [b]. *)
Definition narrow (half : Z) (a b : rangeVal) : Prop :=
  end_ a - start a < half /\ start b - end_ a <= half.

(** The fields of a range are values of the key and value types. *)
Definition fields_in_range (RT VT : uintType) (a : rangeVal) : Prop :=
  in_range RT (start a) /\ in_range RT (end_ a) /\ in_range VT (value a).




(** ** Exclusions *)

(** An exclusion that does not run over the end of the key space. *)
Definition no_wrap (o : op) : Prop :=
  match o with
  | OpExclude s e => s < e
  | _ => True
  end.

(** Width of an excluded range [(startInclusive, endExclusive)], as the
    source computes it: [endExclusive - startInclusive] in the key type. *)
Definition width (RT : uintType) (se : Z * Z) : Z := wrap RT (snd se - fst se).

Definition total_width (RT : uintType) (excl : list (Z * Z)) : Z :=
  foldr (fun se acc => width RT se + acc) 0 excl.

Definition exclusions (excl : list (Z * Z)) : list op :=
  map (fun se => OpExclude (fst se) (snd se)) excl.


(** ** Predicates on maps *)

Section Predicates.
Context {RT VT : uintType}.
Implicit Type r : RangeMap RT VT.

(** What every call preserves once [size] is at least [minRanges]: there
    is a last range and at most [size] closed ranges are kept. *)
Record bounded r : Prop := {
  bounded_nonempty : ranges r <> [];
  bounded_size : 1 <= size r;
  bounded_len : len (ranges r) <= size r + 1
}.

(** What every call that returns preserves, for each [size] that
    [NewRangeMap] can store: there is a last range.  With [size < -1] the
    slice expression of [prune] is out of bounds for every list, with
    [size >= 1] it keeps the last two ranges at least. *)
Record alive r : Prop := {
  alive_nonempty : ranges r <> [];
  alive_size : size r < -1 \/ 1 <= size r
}.

(** The ranges in the plain order of unsigned integers. *)
Record raw_ordered r : Prop := {
  raw_fields : Forall (fields_in_range RT VT) (ranges r);
  raw_chain : chain before (ranges r)
}.



(** The test of [GetValue] for a closed range. *)
Definition in_closed r (key : Z) (rv : rangeVal) : bool :=
  (wrap RT (key - start rv) <? halfRange r)
  && (wrap RT (end_ rv - key) <? halfRange r).

(** The test of [GetValue] for the gap between two consecutive ranges. *)
Definition in_gap r (key : Z) (rvPrev rv : rangeVal) : bool :=
  (wrap RT (key - end_ rvPrev) >? 0)
  && (wrap RT (key - end_ rvPrev) <? halfRange r)
  && (wrap RT (start rv - key) >? 0)
  && (wrap RT (start rv - key) <? halfRange r).

(** The open range after an accepted exclusion. *)
Definition opened (lr : rangeVal) (s e : Z) (end' : Z) : rangeVal :=
  {| start := e; end_ := end';
     value := wrap VT (value lr + wrap VT (wrap RT (e - s))) |}.

(** The open range [lr] closed in front of an exclusion starting at [s]. *)
Definition closed_at (lr : rangeVal) (s : Z) : rangeVal :=
  {| start := start lr; end_ := wrap RT (s - 1); value := value lr |}.

(** The map after an accepted exclusion, [pre ++ [lr]] being its ranges
    before the call. *)
Definition after_exclude r (pre : list rangeVal) (lr : rangeVal) (s e : Z)
  : RangeMap RT VT :=
  if start lr =? s then set_ranges r (pre ++ [opened lr s e (end_ lr)])
  else
    set_ranges r
      (drop (Z.to_nat (len pre + 1 - size r))
         ((pre ++ [closed_at lr s]) ++ [opened lr s e 0])).

End Predicates.

(** ** History and a reference for lookups *)

(** The ranges but the last, open, one. *)
Definition closed_ranges {RT VT : uintType} (r : RangeMap RT VT)
  : list rangeVal :=
  take (length (ranges r) - 1) (ranges r).

(** A range that holds at least one key, in the plain order of integers. *)
Definition holds_a_key (a _ : rangeVal) : Prop := start a <= end_ a.

(** The starts of the ranges are values of the key type. *)
Definition starts_in_range {RT VT : uintType} (r : RangeMap RT VT) : Prop :=
  Forall (fun a => in_range RT (start a)) (ranges r).

(** Reference for lookups, from the exclusions alone: whether [key] lies in
    one of the excluded ranges, and the total width of the excluded ranges
    that end at or below [key]. *)
Definition is_excluded (excl : list (Z * Z)) (key : Z) : bool :=
  existsb (fun se => (fst se <=? key) && (key <? snd se)) excl.

Definition width_below (excl : list (Z * Z)) (key : Z) : Z :=
  foldr (fun se acc => (if snd se <=? key then snd se - fst se else 0) + acc)
    0 excl.

(** The ranges [a] and its successor [b] agree with the exclusions: a key
    of [a] is not excluded and [a] carries the total width excluded below
    it; a key strictly between [a] and [b] is excluded. *)
Definition agrees (VT : uintType) (excl : list (Z * Z)) (a b : rangeVal)
  : Prop :=
  (forall key, start a <= key <= end_ a ->
     is_excluded excl key = false
     /\ value a = wrap VT (width_below excl key))
  /\ (forall key, end_ a < key < start b -> is_excluded excl key = true).

(** An exclusion [(startInclusive, endExclusive)] that starts above 0, does
    not run over the end of the key space and ends in the lower half of
    it. *)
Definition in_lower_half (RT : uintType) (se : Z * Z) : Prop :=
  0 < fst se /\ fst se < snd se /\ snd se <= Z.shiftl 1 (sizeOf RT * 8 - 1).

(** The map agrees with the exclusions [excl] made on it since its
    construction, none of its ranges having been pruned. *)
Record tracks {RT VT : uintType} (excl : list (Z * Z)) (r : RangeMap RT VT)
  : Prop := {
  tracks_len : len (ranges r) <= len excl + 1;
  tracks_oldest : exists x, ranges r !! 0%nat = Some x /\ start x = 0;
  tracks_half : Forall (fun a => start a <= halfRange r) (ranges r);
  tracks_closed : chain (agrees VT excl) (ranges r);
  tracks_open :
    forall lr key, last (ranges r) = Some lr -> start lr <= key ->
      is_excluded excl key = false
      /\ value lr = wrap VT (width_below excl key)
}.

(** The value of [b] is the value of its predecessor [a] plus the number
    of keys between the end of [a] and the start of [b]. *)
Definition value_step (VT : uintType) (a b : rangeVal) : Prop :=
  value b = wrap VT (value a + (start b - end_ a - 1)).

(** A call other than [DecValue]. *)
Definition no_dec (o : op) : Prop :=
  match o with
  | OpDec _ => False
  | _ => True
  end.

(** * Lemmas *)

(** ** Arithmetic of the fixed-width types *)

Lemma modulus_pos t : 0 < modulus t.
Proof. destruct t; reflexivity. Qed.

Lemma modulus_half t : modulus t = 2 * Z.shiftl 1 (sizeOf t * 8 - 1).
Proof. destruct t; reflexivity. Qed.

Lemma wrap_in_range t x : in_range t (wrap t x).
Proof. unfold in_range, wrap. apply Z.mod_pos_bound, modulus_pos. Qed.

Lemma wrap_small t x : in_range t x -> wrap t x = x.
Proof. unfold in_range, wrap. intros H. now apply Z.mod_small. Qed.

(** Unsigned subtraction: the difference, plus [2^W] on a borrow. *)
Lemma wrap_sub t x y :
  in_range t x -> in_range t y ->
  wrap t (x - y) = if y <=? x then x - y else x - y + modulus t.
Proof.
  unfold in_range, wrap. intros Hx Hy.
  destruct (Z.leb_spec y x).
  - apply Z.mod_small. lia.
  - symmetry. apply Z.mod_unique with (q := -1); lia.
Qed.

Lemma wrap_add_wrap t x y : wrap t (x + wrap t y) = wrap t (x + y).
Proof. unfold wrap. apply Zplus_mod_idemp_r. Qed.

(** ** The capacity through [float64] *)

Lemma float64_of_int_exact n : exact_float64 n -> float64_of_int n = n.
Proof.
  unfold exact_float64, float64_of_int. intros H.
  destruct (Z.leb_spec (Z.abs n) (2 ^ 53)); [reflexivity | lia].
Qed.

(** Beyond [2^53] the floats are even numbers. *)
Lemma float64_of_int_even n :
  2 ^ 53 < Z.abs n -> exists m, float64_of_int n = 2 * m.
Proof.
  intros H. unfold float64_of_int.
  destruct (Z.leb_spec (Z.abs n) (2 ^ 53)); [lia|]. cbv zeta.
  assert (Hl : 53 <= Z.log2 (Z.abs n))
    by (change 53 with (Z.log2 (2 ^ 53)); apply Z.log2_le_mono; lia).
  set (e := Z.log2 (Z.abs n) - 52).
  assert (He : 2 ^ e = 2 * 2 ^ (e - 1)).
  { replace e with (Z.succ (e - 1)) at 1 by lia.
    apply Z.pow_succ_r. unfold e. lia. }
  match goal with
  | |- exists m, _ * (?q' * _) = _ =>
      exists (Z.sgn n * (q' * 2 ^ (e - 1)))
  end.
  rewrite He. ring.
Qed.

(** Beyond [2^53] the conversion moves a positive [int] by at most half of
    the spacing of the floats around it, which is at most [2^10] below
    [2^63]. *)
Lemma float64_of_int_near n :
  2 ^ 53 < n < 2 ^ 63 -> n - 512 <= float64_of_int n <= n + 512.
Proof.
  intros [H0 H1]. unfold float64_of_int.
  destruct (Z.leb_spec (Z.abs n) (2 ^ 53)); [lia|].
  cbv zeta. rewrite Z.abs_eq, Z.sgn_pos by lia.
  assert (Hl : 53 <= Z.log2 n < 63).
  { split.
    - change 53 with (Z.log2 (2 ^ 53)). apply Z.log2_le_mono. lia.
    - apply (proj1 (Z.log2_lt_pow2 n 63 ltac:(lia))). exact H1. }
  assert (Hp : 2 <= 2 ^ (Z.log2 n - 52) <= 1024).
  { split.
    - change 2 with (2 ^ 1) at 1. apply Z.pow_le_mono_r; lia.
    - change 1024 with (2 ^ 10). apply Z.pow_le_mono_r; lia. }
  set (p := 2 ^ (Z.log2 n - 52)) in *.
  pose proof (Z.div_mod n p ltac:(lia)) as Hdm.
  pose proof (Z.mod_pos_bound n p ltac:(lia)) as Hm.
  set (q := n / p) in *. set (rem := n mod p) in *.
  set (q' := if (2 * rem >? p) || ((2 * rem =? p) && Z.odd q)
             then q + 1 else q).
  assert (Hq : (q' = q + 1 /\ p <= 2 * rem) \/ (q' = q /\ 2 * rem <= p)).
  { unfold q'.
    destruct (Z.gtb_spec (2 * rem) p); [left; split; [reflexivity | lia]|].
    destruct (Z.eqb_spec (2 * rem) p); cbn [orb andb];
      [|right; split; [reflexivity | lia]].
    destruct (Z.odd q); [left | right]; split; try reflexivity; lia. }
  destruct Hq as [[-> Hr]|[-> Hr]]; nia.
Qed.

(** From [2^63 - 512] on, an [int] is rounded up to [2^63]. *)
Lemma float64_of_int_overflow n :
  2 ^ 63 - 512 <= n < 2 ^ 63 -> float64_of_int n = 2 ^ 63.
Proof.
  intros H. unfold float64_of_int.
  destruct (Z.leb_spec (Z.abs n) (2 ^ 53)); [lia|].
  cbv zeta. rewrite Z.abs_eq, Z.sgn_pos by lia.
  assert (Hl : Z.log2 n = 62)
    by (apply Z.log2_unique; [|change (Z.succ 62) with 63]; lia).
  rewrite Hl. change (2 ^ (62 - 52)) with 1024.
  pose proof (Z.div_mod n 1024 ltac:(lia)) as Hdm.
  pose proof (Z.mod_pos_bound n 1024 ltac:(lia)) as Hm.
  assert (Hq : n / 1024 = 9007199254740991) by lia.
  rewrite Hq in *. change (Z.odd 9007199254740991) with true.
  destruct (Z.gtb_spec (2 * (n mod 1024)) 1024); cbn [orb andb];
    [reflexivity|].
  destruct (Z.eqb_spec (2 * (n mod 1024)) 1024); [reflexivity | lia].
Qed.

Lemma float64_of_int_small n : n <= 1 -> float64_of_int n <= 1.
Proof.
  intros H. unfold float64_of_int.
  destruct (Z.leb_spec (Z.abs n) (2 ^ 53)) as [|Hbig]; [exact H|].
  cbv zeta. rewrite Z.sgn_neg by lia.
  set (e := Z.log2 (Z.abs n) - 52).
  set (q := Z.abs n / 2 ^ e).
  assert (Hp : 0 <= 2 ^ e) by (apply Z.pow_nonneg; lia).
  assert (Hq : 0 <= q) by (apply Z_div_nonneg_nonneg; lia).
  match goal with
  | |- -1 * (?q' * _) <= 1 =>
      assert (Hq' : 0 <= q') by (destruct (_ || _); lia)
  end.
  nia.
Qed.

Lemma int_of_float64_cases f :
  (minInt <= f <= maxInt /\ int_of_float64 f = f)
  \/ ((f < minInt \/ maxInt < f) /\ int_of_float64 f = minInt).
Proof.
  unfold int_of_float64.
  destruct (Z.leb_spec minInt f), (Z.leb_spec f maxInt); cbn [andb];
    auto with zarith.
Qed.

Lemma NewRangeMap_size RT VT sz :
  size (NewRangeMap RT VT sz)
  = int_of_float64 (Z.max (float64_of_int sz) 1).
Proof. reflexivity. Qed.

Lemma NewRangeMap_unfold RT VT sz :
  NewRangeMap RT VT sz
  = {| halfRange := Z.shiftl 1 (sizeOf RT * 8 - 1);
       size := size (NewRangeMap RT VT sz);
       ranges := [ {| start := 0; end_ := 0; value := 0 |} ] |}.
Proof. reflexivity. Qed.

(** The capacity that [NewRangeMap] stores is the smallest [int], or at
    least [minRanges] and below the largest [int]. *)
Lemma NewRangeMap_stored RT VT sz :
  size (NewRangeMap RT VT sz) = minInt
  \/ 1 <= size (NewRangeMap RT VT sz) < maxInt.
Proof.
  rewrite NewRangeMap_size.
  destruct (int_of_float64_cases (Z.max (float64_of_int sz) 1))
    as [[Hin ->]|[_ ->]]; [right | now left].
  unfold minInt, maxInt in *. split; [lia|].
  destruct (Z.le_gt_cases (Z.abs sz) (2 ^ 53)) as [Hle|Hgt].
  - rewrite float64_of_int_exact by exact Hle. lia.
  - destruct (float64_of_int_even sz Hgt) as [m Hm]. lia.
Qed.

Lemma NewRangeMap_size_small RT VT sz :
  sz <= 1 -> size (NewRangeMap RT VT sz) = 1.
Proof.
  intros H. rewrite NewRangeMap_size.
  pose proof (float64_of_int_small sz H).
  now replace (Z.max (float64_of_int sz) 1) with 1 by lia.
Qed.


(** From [2^63 - 512] on, the capacity stored is the smallest [int]. *)
Lemma NewRangeMap_size_overflow RT VT sz :
  2 ^ 63 - 512 <= sz <= maxInt -> size (NewRangeMap RT VT sz) = minInt.
Proof.
  unfold maxInt. intros H.
  rewrite NewRangeMap_size, float64_of_int_overflow by lia.
  reflexivity.
Qed.

(** Below [2^63 - 512] the argument is not rounded up to [2^63]: the
    capacity stored is at least [minRanges], and at most 512 away from an
    argument beyond [2^53]. *)
Lemma NewRangeMap_size_near RT VT sz :
  sz < 2 ^ 63 - 512 ->
  1 <= size (NewRangeMap RT VT sz) < maxInt
  /\ (2 ^ 53 < sz ->
      sz - 512 <= size (NewRangeMap RT VT sz) <= sz + 512).
Proof.
  intros H.
  destruct (NewRangeMap_stored RT VT sz) as [Hmin|Hpos].
  - exfalso. rewrite NewRangeMap_size in Hmin.
    destruct (int_of_float64_cases (Z.max (float64_of_int sz) 1))
      as [[Hin Heq]|[Hout _]]; unfold minInt, maxInt in *; [lia|].
    destruct (Z.le_gt_cases sz (2 ^ 53)) as [Hle|Hgt].
    + destruct (Z.le_gt_cases sz 1) as [H1|H1].
      * pose proof (float64_of_int_small sz H1). lia.
      * rewrite float64_of_int_exact in Hout
          by (unfold exact_float64; lia). lia.
    + pose proof (float64_of_int_near sz ltac:(lia)). lia.
  - split; [exact Hpos|]. intros Hgt.
    rewrite NewRangeMap_size in *.
    pose proof (float64_of_int_near sz ltac:(lia)).
    destruct (int_of_float64_cases (Z.max (float64_of_int sz) 1))
      as [[_ Heq]|[_ Heq]]; rewrite Heq in *;
      unfold minInt, maxInt in *; lia.
Qed.

(** ** Slices whose last element is singled out *)

Lemma len_app {A} (s1 s2 : list A) : len (s1 ++ s2) = len s1 + len s2.
Proof. unfold len. rewrite length_app. lia. Qed.

Lemma len_nonneg {A} (s : list A) : 0 <= len s.
Proof. unfold len. lia. Qed.

Lemma snoc_inv {A} (s : list A) : s <> [] -> exists pre x, s = pre ++ [x].
Proof.
  induction s as [|x pre _] using rev_ind; intros H.
  - congruence.
  - eauto.
Qed.

Lemma index_lookup {A} (s : list A) (i : nat) : index s (Z.of_nat i) = s !! i.
Proof.
  unfold index. destruct (Z.leb_spec 0 (Z.of_nat i)); [|lia].
  now rewrite Nat2Z.id.
Qed.

Lemma index_snoc {A} (pre : list A) x :
  index (pre ++ [x]) (len (pre ++ [x]) - 1) = Some x.
Proof.
  rewrite len_app. change (len [x]) with 1.
  replace (len pre + 1 - 1) with (Z.of_nat (length pre)) by (unfold len; lia).
  rewrite index_lookup. apply list_lookup_middle. reflexivity.
Qed.

Lemma store_snoc {A} (pre : list A) x y :
  store (pre ++ [x]) (len (pre ++ [x]) - 1) y = pre ++ [y].
Proof.
  rewrite len_app. change (len [x]) with 1. unfold store.
  replace (Z.to_nat (len pre + 1 - 1)) with (length pre + 0)%nat
    by (unfold len; lia).
  now rewrite insert_app_r.
Qed.

Lemma index_last_is_Some {A} (s : list A) :
  s <> [] -> exists x, index s (len s - 1) = Some x /\ last s = Some x.
Proof.
  intros H. destruct (snoc_inv s H) as (pre & x & ->).
  exists x. split; [apply index_snoc | apply last_snoc].
Qed.

Lemma last_index {A} (s : list A) x :
  last s = Some x -> index s (len s - 1) = Some x.
Proof.
  intros H. assert (Hne : s <> []) by (intros ->; discriminate).
  destruct (index_last_is_Some s Hne) as (y & Hy & Hl). congruence.
Qed.

Lemma index_is_Some {A} (s : list A) i :
  0 <= i < len s -> exists x, index s i = Some x.
Proof.
  intros [H0 H1]. unfold index. destruct (Z.leb_spec 0 i); [|lia].
  apply lookup_lt_is_Some. unfold len in H1. lia.
Qed.

Lemma last_drop {A} (s : list A) n :
  (n < length s)%nat -> last (drop n s) = last s.
Proof.
  intros H. rewrite <- (take_drop n s) at 2.
  rewrite last_app.
  destruct (last (drop n s)) eqn:E; [reflexivity|].
  apply last_None in E. apply (f_equal length) in E.
  rewrite length_drop in E. simpl in E. lia.
Qed.

(** ** The calls on a map whose last range is singled out *)

Section Steps.
Context {RT VT : uintType}.
Implicit Type r : RangeMap RT VT.

Lemma set_ranges_id r : set_ranges r (ranges r) = r.
Proof. now destruct r. Qed.

Lemma DecValue_snoc r pre lr dec :
  ranges r = pre ++ [lr] ->
  DecValue r dec =
    Some (set_ranges r
            (pre ++ [ {| start := start lr; end_ := end_ lr;
                         value := wrap VT (value lr - dec) |} ])).
Proof.
  intros E. unfold DecValue. rewrite E, index_snoc. simpl.
  now rewrite store_snoc.
Qed.

(** [prune] keeps the last [size + 1] ranges; it cannot panic once
    [size >= -1]. *)
Lemma prune_drop r :
  -1 <= size r ->
  prune r =
    Some (set_ranges r
            (drop (Z.to_nat (len (ranges r) - size r - 1)) (ranges r))).
Proof.
  intros Hs. unfold prune, slice_from.
  pose proof (len_nonneg (ranges r)) as Hl.
  destruct (Z.gtb_spec (len (ranges r)) (size r + 1)) as [Hgt|Hle].
  - destruct (Z.leb_spec 0 (len (ranges r) - size r - 1)); [|lia].
    destruct (Z.leb_spec (len (ranges r) - size r - 1) (len (ranges r)));
      [|lia].
    reflexivity.
  - replace (Z.to_nat (len (ranges r) - size r - 1)) with 0%nat by lia.
    rewrite drop_0. now rewrite set_ranges_id.
Qed.

(** With a smaller [size] it panics, whatever the ranges. *)
Lemma prune_Some r r' :
  prune r = Some r' ->
  -1 <= size r
  /\ r' = set_ranges r
            (drop (Z.to_nat (len (ranges r) - size r - 1)) (ranges r)).
Proof.
  intros Hp. pose proof (len_nonneg (ranges r)) as Hl.
  assert (Hs : -1 <= size r).
  { unfold prune, slice_from in Hp.
    destruct (Z.gtb_spec (len (ranges r)) (size r + 1)); [|lia].
    destruct (Z.leb_spec 0 (len (ranges r) - size r - 1));
      [|discriminate].
    destruct (Z.leb_spec (len (ranges r) - size r - 1) (len (ranges r)));
      [lia | discriminate]. }
  split; [exact Hs|]. rewrite (prune_drop r Hs) in Hp. congruence.
Qed.

(** The additions and subtractions of [prune] wrap around only for the
    capacity [minInt], and the slice expression then panics as it does
    without wrap-around: on the capacities that [NewRangeMap] can store
    ([NewRangeMap_stored]), [prune] is [prune_wrapping]. *)
Lemma prune_wrapping_agrees r :
  size r = minInt \/ 1 <= size r < maxInt ->
  1 <= len (ranges r) <= maxInt ->
  prune_wrapping r = prune r.
Proof.
  unfold prune_wrapping, prune, slice_from, wrap_int, minInt, maxInt.
  intros [Hs|Hs] Hl.
  - rewrite Hs.
    replace ((- 2 ^ 63 + 1 - - 2 ^ 63) mod 2 ^ 64 + - 2 ^ 63)
      with (- 2 ^ 63 + 1) by reflexivity.
    destruct (Z.gtb_spec (len (ranges r)) (- 2 ^ 63 + 1)); [|lia].
    replace ((len (ranges r) - - 2 ^ 63 - - 2 ^ 63) mod 2 ^ 64)
      with (len (ranges r))
      by (apply Z.mod_unique with (q := 1); lia).
    rewrite (Z.mod_small (len (ranges r) + - 2 ^ 63 - 1 - - 2 ^ 63)) by lia.
    destruct (Z.leb_spec 0 (len (ranges r) + - 2 ^ 63 - 1 - - 2 ^ 63
                            + - 2 ^ 63)); [lia|].
    destruct (Z.leb_spec 0 (len (ranges r) - - 2 ^ 63 - 1)); [|lia].
    destruct (Z.leb_spec (len (ranges r) - - 2 ^ 63 - 1) (len (ranges r)));
      [lia | reflexivity].
  - rewrite (Z.mod_small (size r + 1 - - 2 ^ 63)) by lia.
    replace (size r + 1 - - 2 ^ 63 + - 2 ^ 63) with (size r + 1) by lia.
    rewrite (Z.mod_small (len (ranges r) - size r - - 2 ^ 63)) by lia.
    rewrite (Z.mod_small (len (ranges r) - size r - - 2 ^ 63 + - 2 ^ 63 - 1
                          - - 2 ^ 63)) by lia.
    replace (len (ranges r) - size r - - 2 ^ 63 + - 2 ^ 63 - 1 - - 2 ^ 63
             + - 2 ^ 63) with (len (ranges r) - size r - 1) by lia.
    reflexivity.
Qed.

Lemma ExcludeRange_snoc r pre lr s e :
  ranges r = pre ++ [lr] ->
  ExcludeRange r s e =
    if (e =? s) || (wrap RT (e - s) >? halfRange r)
    then Some (r, Some errReversedOrder)
    else if start lr >? s then Some (r, Some errReversedOrder)
    else
      let newValue := wrap VT (value lr + wrap VT (wrap RT (e - s))) in
      if start lr =? s then
        Some (set_ranges r
                (pre ++ [ {| start := e; end_ := end_ lr;
                             value := newValue |} ]), None)
      else
        r' ← prune (set_ranges r
                      ((pre ++ [ {| start := start lr;
                                    end_ := wrap RT (s - 1);
                                    value := value lr |} ])
                         ++ [ {| start := e; end_ := 0;
                                 value := newValue |} ]));
        Some (r', None).
Proof.
  intros E. unfold ExcludeRange. rewrite E, index_snoc. simpl.
  now rewrite !store_snoc.
Qed.

(** [ExcludeRange] returns no error other than [errReversedOrder], and
    leaves the receiver alone when it returns one. *)
Lemma ExcludeRange_error r s e r' err :
  ExcludeRange r s e = Some (r', Some err) ->
  r' = r /\ err = errReversedOrder.
Proof.
  unfold ExcludeRange.
  destruct ((e =? s) || _); [intros [= <- <-]; auto|].
  destruct (index _ _) as [lr|]; simpl; [|discriminate].
  destruct (start lr >? s); [intros [= <- <-]; auto|].
  destruct (start lr =? s); [discriminate|].
  destruct (prune _); simpl; discriminate.
Qed.

Lemma scan_total r key numRanges (n : nat) :
  (n <= length (ranges r))%nat ->
  is_Some (scan r key numRanges n).
Proof.
  induction n as [|n IH]; intros Hn; simpl; [eauto|].
  destruct (index_is_Some (ranges r) (Z.of_nat n)) as [rv ->];
    [unfold len; lia|]. simpl.
  destruct (_ && _ && _); [eauto|].
  destruct (Z.gtb_spec (Z.of_nat n) 0); [|apply IH; lia].
  destruct (index_is_Some (ranges r) (Z.of_nat n - 1)) as [rp ->];
    [unfold len; lia|]. simpl.
  destruct (_ && _ && _ && _); [eauto|apply IH; lia].
Qed.

(** [GetValue] never panics, whatever the state of the map. *)
Lemma GetValue_total r key : is_Some (GetValue r key).
Proof.
  unfold GetValue.
  assert (Hscan : is_Some (scan r key (len (ranges r))
                             (Z.to_nat (len (ranges r)))))
    by (apply scan_total; unfold len; lia).
  destruct (Z.eqb_spec (len (ranges r)) 0) as [|Hne]; simpl; [exact Hscan|].
  pose proof (len_nonneg (ranges r)).
  destruct (index_is_Some (ranges r) (len (ranges r) - 1)) as [lr ->];
    [lia|]. simpl.
  destruct (key >=? start lr); [eauto|].
  destruct (index_is_Some (ranges r) 0) as [r0 ->]; [lia|]. simpl.
  destruct (key <? start r0); [eauto|exact Hscan].
Qed.

End Steps.

(** ** Accepted exclusions *)

Section Accepted.
Context {RT VT : uintType}.
Implicit Type r : RangeMap RT VT.

Lemma ExcludeRange_cases r pre lr s e :
  ranges r = pre ++ [lr] -> -1 <= size r ->
  ExcludeRange r s e =
    if (e =? s) || (wrap RT (e - s) >? halfRange r) || (start lr >? s)
    then Some (r, Some errReversedOrder)
    else Some (after_exclude r pre lr s e, None).
Proof.
  intros E Hs. rewrite (ExcludeRange_snoc r pre lr s e E).
  destruct (_ || _); [reflexivity|]. cbn [orb].
  destruct (start lr >? s); [reflexivity|]. cbv zeta.
  unfold after_exclude. destruct (start lr =? s); [reflexivity|].
  rewrite prune_drop by exact Hs.
  cbn [mbind option_bind ranges set_ranges size].
  do 3 f_equal. unfold set_ranges. cbn [halfRange size]. do 2 f_equal.
  rewrite !len_app. change (len [_]) with 1. lia.
Qed.

Lemma ExcludeRange_accepted r pre lr s e r' :
  ranges r = pre ++ [lr] -> -1 <= size r ->
  ExcludeRange r s e = Some (r', None) ->
  e <> s /\ wrap RT (e - s) <= halfRange r /\ start lr <= s
  /\ r' = after_exclude r pre lr s e.
Proof.
  intros E Hs. rewrite (ExcludeRange_cases r pre lr s e E Hs).
  destruct (Z.eqb_spec e s); [discriminate|].
  destruct (Z.gtb_spec (wrap RT (e - s)) (halfRange r)); [discriminate|].
  destruct (Z.gtb_spec (start lr) s); [discriminate|].
  cbn [orb]. intros [= <-]. repeat split; [assumption | lia | lia].
Qed.

(** What a call of [ExcludeRange] that returns has done, whatever the
    capacity: a split that returns has not panicked in [prune]. *)
Lemma ExcludeRange_returns r pre lr s e r' err :
  ranges r = pre ++ [lr] ->
  ExcludeRange r s e = Some (r', err) ->
  (err = Some errReversedOrder /\ r' = r)
  \/ (err = None /\ e <> s /\ wrap RT (e - s) <= halfRange r
      /\ start lr <= s /\ r' = after_exclude r pre lr s e
      /\ (start lr = s \/ -1 <= size r)).
Proof.
  intros E. rewrite (ExcludeRange_snoc r pre lr s e E).
  destruct (Z.eqb_spec e s); [intros [= <- <-]; auto|].
  destruct (Z.gtb_spec (wrap RT (e - s)) (halfRange r));
    [intros [= <- <-]; auto|].
  cbn [orb].
  destruct (Z.gtb_spec (start lr) s); [intros [= <- <-]; auto|].
  cbv zeta. unfold after_exclude.
  destruct (Z.eqb_spec (start lr) s).
  - intros [= <- <-]. right. repeat split; auto; lia.
  - destruct (prune _) as [r1|] eqn:Hp; simpl; [|discriminate].
    intros [= <- <-]. apply prune_Some in Hp as [Hs ->].
    right. repeat split; auto; try lia.
    cbn [ranges set_ranges size]. unfold set_ranges.
    cbn [halfRange size]. do 2 f_equal.
    rewrite !len_app. change (len [_]) with 1. lia.
Qed.

(** The last range after an accepted exclusion is the new open range. *)
Lemma after_exclude_last r pre lr s e :
  start lr = s \/ 0 <= size r ->
  last (ranges (after_exclude r pre lr s e))
  = Some (opened (RT := RT) (VT := VT) lr s e
            (if start lr =? s then end_ lr else 0)).
Proof.
  intros H. unfold after_exclude.
  destruct (Z.eqb_spec (start lr) s); cbn [ranges set_ranges];
    [apply last_snoc|].
  rewrite last_drop; [apply last_snoc|].
  rewrite !length_app. simpl. unfold len. lia.
Qed.

Lemma run_ok_exclude r s e ops r' :
  run_ok r (OpExclude s e :: ops) = Some r' ->
  exists r1, ExcludeRange r s e = Some (r1, None) /\ run_ok r1 ops = Some r'.
Proof.
  simpl. destruct (ExcludeRange r s e) as [[r1 [err|]]|]; simpl;
    try discriminate.
  eauto.
Qed.

End Accepted.

(** ** Non-emptiness and the bound on the number of ranges *)

Section Bounded.
Context {RT VT : uintType}.
Implicit Type r : RangeMap RT VT.

Lemma bounded_init r val : 1 <= size r -> bounded (initRanges r val).
Proof.
  intros H. split; simpl; [discriminate | exact H | unfold len; simpl; lia].
Qed.

Lemma prune_bounded r pre x :
  1 <= size r ->
  exists r', prune (set_ranges r (pre ++ [x])) = Some r'
             /\ bounded r' /\ size r' = size r
             /\ halfRange r' = halfRange r
             /\ last (ranges r') = Some x.
Proof.
  intros Hs. rewrite prune_drop by (simpl; lia). simpl.
  eexists; split; [reflexivity|].
  pose proof (len_nonneg pre) as Hp.
  assert (Hl : len (pre ++ [x]) = len pre + 1)
    by (rewrite len_app; reflexivity).
  set (n := Z.to_nat (len (pre ++ [x]) - size r - 1)).
  assert (Hn : (n < length (pre ++ [x]))%nat)
    by (unfold n, len in *; lia).
  assert (Hlast : last (drop n (pre ++ [x])) = Some x)
    by (rewrite last_drop by exact Hn; apply last_snoc).
  repeat split; simpl; try reflexivity; try assumption.
  - intros E. rewrite E in Hlast. discriminate.
  - unfold len in *. rewrite length_drop. unfold n in *. lia.
Qed.

Lemma apply_op_bounded r o :
  bounded r ->
  exists r' err, apply_op r o = Some (r', err)
                 /\ bounded r' /\ size r' = size r
                 /\ halfRange r' = halfRange r.
Proof.
  intros [Hne Hs Hl].
  destruct (snoc_inv _ Hne) as (pre & lr & E).
  destruct o as [val|dec|s e|key]; simpl.
  - exists (initRanges r val), None. split; [reflexivity|].
    split; [now apply bounded_init|]. split; reflexivity.
  - rewrite (DecValue_snoc r pre lr dec E). simpl.
    eexists _, None. split; [reflexivity|].
    assert (Hlen : len (pre ++ [ {| start := start lr; end_ := end_ lr;
                                    value := wrap VT (value lr - dec) |} ])
                   = len (ranges r))
      by (rewrite E, !len_app; reflexivity).
    repeat split; simpl; try assumption; try lia.
    intros H. now destruct pre.
  - rewrite (ExcludeRange_snoc r pre lr s e E).
    destruct (_ || _).
    { exists r, (Some errReversedOrder). repeat split; assumption. }
    destruct (start lr >? s).
    { exists r, (Some errReversedOrder). repeat split; assumption. }
    cbv zeta. destruct (start lr =? s).
    + eexists _, None. split; [reflexivity|].
      assert (Hlen : forall y, len (pre ++ [y]) = len (ranges r))
        by (intros y; rewrite E, !len_app; reflexivity).
      repeat split; simpl; try assumption; try (rewrite Hlen; lia).
      intros H. now destruct pre.
    + edestruct (prune_bounded r) as (r' & -> & Hb & Hs' & Hh & _);
        [exact Hs|]. simpl.
      exists r', None. repeat split; try assumption; apply Hb.
  - destruct (GetValue_total r key) as [res ->]. simpl.
    exists r, (snd res). repeat split; assumption.
Qed.

Lemma run_bounded ops : forall r,
  bounded r ->
  exists r', run r ops = Some r' /\ bounded r' /\ size r' = size r
             /\ halfRange r' = halfRange r.
Proof.
  induction ops as [|o ops IH]; intros r Hb; simpl.
  - exists r. repeat split; try reflexivity; apply Hb.
  - destruct (apply_op_bounded r o Hb) as (r1 & err & -> & Hb1 & Hs1 & Hh1).
    simpl. destruct (IH r1 Hb1) as (r' & Hrun & Hb' & Hs' & Hh').
    exists r'. repeat split; try assumption; try apply Hb'; congruence.
Qed.

Lemma run_ok_run ops : forall r r',
  run_ok r ops = Some r' -> run r ops = Some r'.
Proof.
  induction ops as [|o ops IH]; intros r r'; simpl; [auto|].
  destruct (apply_op r o) as [[r1 [err|]]|]; simpl; try discriminate.
  apply IH.
Qed.

End Bounded.

Lemma NewRangeMap_bounded RT VT sz :
  sz < 2 ^ 63 - 512 -> bounded (NewRangeMap RT VT sz).
Proof.
  intros H. destruct (NewRangeMap_size_near RT VT sz H) as [[Hs _] _].
  split; [discriminate | exact Hs |].
  change (len (ranges (NewRangeMap RT VT sz))) with 1. lia.
Qed.

(** ** Non-emptiness, whatever the capacity *)

Section Alive.
Context {RT VT : uintType}.
Implicit Type r : RangeMap RT VT.

(** An accepted split tells that the capacity is at least 1. *)
Lemma split_capacity r pre lr s e r' :
  alive r -> ranges r = pre ++ [lr] -> start lr <> s ->
  ExcludeRange r s e = Some (r', None) ->
  1 <= size r.
Proof.
  intros [_ Hs] E Hne Hex.
  destruct (ExcludeRange_returns r pre lr s e r' None E Hex)
    as [[? _]|(_ & _ & _ & _ & _ & [?|?])];
    [discriminate | contradiction | lia].
Qed.

(** With a capacity below -1 every split panics. *)
Lemma split_panics r pre lr s e :
  size r < -1 -> ranges r = pre ++ [lr] ->
  e <> s -> wrap RT (e - s) <= halfRange r -> start lr < s ->
  ExcludeRange r s e = None.
Proof.
  intros Hs E He Hw Hlt.
  destruct (ExcludeRange r s e) as [[r' err]|] eqn:Hex; [|reflexivity].
  destruct (ExcludeRange_returns r pre lr s e r' err E Hex)
    as [[-> ->]|(_ & _ & _ & _ & _ & [?|?])]; [|lia..].
  rewrite (ExcludeRange_snoc r pre lr s e E) in Hex.
  destruct (Z.eqb_spec e s); [contradiction|].
  destruct (Z.gtb_spec (wrap RT (e - s)) (halfRange r)); [lia|].
  destruct (Z.gtb_spec (start lr) s); [lia|]. cbn [orb] in Hex.
  cbv zeta in Hex. destruct (Z.eqb_spec (start lr) s); [lia|].
  destruct (prune _); discriminate.
Qed.

Lemma apply_op_alive r o r' err :
  alive r ->
  apply_op r o = Some (r', err) ->
  alive r' /\ size r' = size r /\ halfRange r' = halfRange r.
Proof.
  intros [Hne Hs] Hstep.
  destruct (snoc_inv _ Hne) as (pre & lr & E).
  destruct o as [val|dec|s e|key]; simpl in Hstep.
  - injection Hstep as <- <-.
    split; [split; [discriminate | exact Hs] | split; reflexivity].
  - rewrite (DecValue_snoc r pre lr dec E) in Hstep. simpl in Hstep.
    injection Hstep as <- <-.
    split; [split; [|exact Hs] | split; reflexivity].
    simpl. intros H. now destruct pre.
  - destruct (ExcludeRange_returns r pre lr s e r' err E Hstep)
      as [[_ ->]|(_ & _ & _ & _ & -> & Hcap)].
    + split; [split; assumption | split; reflexivity].
    + assert (Hsz : size (after_exclude r pre lr s e) = size r
                    /\ halfRange (after_exclude r pre lr s e) = halfRange r)
        by (unfold after_exclude; destruct (start lr =? s);
            split; reflexivity).
      destruct Hsz as [Hsz Hh].
      split; [split; [|rewrite Hsz; exact Hs] | split; assumption].
      intros Hnil.
      pose proof (after_exclude_last r pre lr s e ltac:(lia)) as Hl.
      rewrite Hnil in Hl. discriminate.
  - destruct (GetValue r key); simpl in Hstep; [|discriminate].
    injection Hstep as <- <-.
    split; [split; assumption | split; reflexivity].
Qed.

Lemma run_alive ops : forall r r',
  alive r -> run r ops = Some r' ->
  alive r' /\ size r' = size r /\ halfRange r' = halfRange r.
Proof.
  induction ops as [|o ops IH]; intros r r' Ha; simpl.
  - intros [= <-]. auto.
  - destruct (apply_op r o) as [[r1 err]|] eqn:Hstep; simpl; [|discriminate].
    destruct (apply_op_alive r o r1 err Ha Hstep) as (Ha1 & Hs1 & Hh1).
    intros Hrun. destruct (IH r1 r' Ha1 Hrun) as (Ha' & Hs' & Hh').
    split; [exact Ha' | split; congruence].
Qed.

End Alive.

Lemma NewRangeMap_alive RT VT sz : alive (NewRangeMap RT VT sz).
Proof.
  split; [discriminate|].
  destruct (NewRangeMap_stored RT VT sz) as [->|[H _]];
    [left; unfold minInt; lia | now right].
Qed.

(** The bound [2^63 - 512] on the argument of [NewRangeMap] is the least
    one: from there on, the first split panics. *)
Lemma NewRangeMap_split_panics RT VT sz s e :
  2 ^ 63 - 512 <= sz <= maxInt ->
  0 < s -> e <> s -> wrap RT (e - s) <= Z.shiftl 1 (sizeOf RT * 8 - 1) ->
  ExcludeRange (NewRangeMap RT VT sz) s e = None.
Proof.
  intros Hsz Hs He Hw.
  apply (split_panics _ [] {| start := 0; end_ := 0; value := 0 |});
    [|reflexivity | exact He | exact Hw | exact Hs].
  rewrite (NewRangeMap_size_overflow RT VT sz Hsz). unfold minInt. lia.
Qed.

(** ** Chains *)

Lemma chain_lookup {A} (R : A -> A -> Prop) (s : list A) :
  chain R s <->
  (forall (i : nat) a b, s !! i = Some a -> s !! S i = Some b -> R a b).
Proof.
  induction s as [|x tl IH]; simpl.
  - split; [intros _ i a b H; discriminate | trivial].
  - rewrite IH. split.
    + intros [Hx Htl] [|i] a b Ha Hb; simpl in *.
      * destruct tl; simplify_eq/=. exact Hx.
      * eapply Htl; eassumption.
    + intros H. split.
      * destruct tl as [|y tl]; [trivial|]. now apply (H 0%nat).
      * intros i a b Ha Hb. now apply (H (S i)).
Qed.

Lemma chain_drop {A} (R : A -> A -> Prop) (s : list A) n :
  chain R s -> chain R (drop n s).
Proof.
  rewrite !chain_lookup. intros H i a b. rewrite !lookup_drop.
  replace (n + S i)%nat with (S (n + i)) by lia. apply H.
Qed.

Lemma chain_snoc {A} (R : A -> A -> Prop) pre a b :
  chain R (pre ++ [a]) -> R a b -> chain R ((pre ++ [a]) ++ [b]).
Proof.
  induction pre as [|p pre IH]; simpl; [tauto|].
  destruct pre; simpl in *; tauto.
Qed.

Lemma chain_change_last {A} (R : A -> A -> Prop) pre a a' :
  chain R (pre ++ [a]) -> (forall p, R p a -> R p a') -> chain R (pre ++ [a']).
Proof.
  intros H Hp. induction pre as [|p pre IH]; simpl; [tauto|].
  destruct pre; simpl in *; intuition.
Qed.

(** ** Raw order of the ranges *)

Section RawOrder.
Context {RT VT : uintType}.
Implicit Type r : RangeMap RT VT.

Lemma zero_in_range t : in_range t 0.
Proof. split; [lia | apply modulus_pos]. Qed.

Lemma raw_ordered_init r val :
  in_range VT val -> raw_ordered (initRanges r val).
Proof.
  intros Hv. split; simpl; [|tauto].
  constructor; [|constructor].
  split; [|split]; simpl; [apply zero_in_range..|exact Hv].
Qed.

Lemma Forall_snoc_inv {A} (P : A -> Prop) pre x :
  Forall P (pre ++ [x]) -> Forall P pre /\ P x.
Proof.
  rewrite Forall_app. intros [H1 H2]. split; [exact H1|].
  now inversion H2.
Qed.

Lemma Forall_snoc {A} (P : A -> Prop) pre x :
  Forall P pre -> P x -> Forall P (pre ++ [x]).
Proof. intros H1 H2. apply Forall_app. split; [exact H1 | now constructor]. Qed.

(** The fields of the ranges stay values of their types, whatever the
    calls return. *)
Lemma apply_op_fields r o r' err :
  ranges r <> [] -> Forall (fields_in_range RT VT) (ranges r) ->
  wf_op RT VT o ->
  apply_op r o = Some (r', err) ->
  Forall (fields_in_range RT VT) (ranges r').
Proof.
  intros Hne Hf0 Hwf.
  destruct (snoc_inv _ Hne) as (pre & lr & E).
  pose proof Hf0 as Hf. rewrite E in Hf.
  destruct (Forall_snoc_inv _ _ _ Hf) as [Hfpre (Hlr1 & Hlr2 & Hlr3)].
  destruct o as [val|dec|s e|key]; simpl.
  - intros [= <- <-]. simpl. constructor; [|constructor].
    split; [|split]; simpl; [apply zero_in_range..|exact Hwf].
  - rewrite (DecValue_snoc r pre lr dec E). simpl. intros [= <- <-].
    simpl. apply Forall_snoc; [exact Hfpre|].
    repeat split; simpl; try apply Hlr1; try apply Hlr2;
      apply wrap_in_range.
  - simpl in Hwf. destruct Hwf as [Hsr Her]. intros Hex.
    destruct (ExcludeRange_returns r pre lr s e r' err E Hex)
      as [[_ ->]|(_ & _ & _ & _ & -> & _)]; [exact Hf0|].
    unfold after_exclude. destruct (start lr =? s); simpl.
    + apply Forall_snoc; [exact Hfpre|].
      repeat split; simpl; try apply Her; try apply Hlr2;
        apply wrap_in_range.
    + apply Forall_drop, Forall_snoc; [apply Forall_snoc|];
        [exact Hfpre| |]; (split; [|split]); simpl;
        first [ exact Hlr1 | exact Hlr3 | exact Her
              | apply wrap_in_range | apply zero_in_range ].
  - destruct (GetValue r key); simpl; [|discriminate].
    intros [= <- <-]. exact Hf0.
Qed.

Lemma apply_op_raw_ordered r o r' :
  ranges r <> [] -> raw_ordered r -> wf_op RT VT o -> no_wrap o ->
  apply_op r o = Some (r', None) ->
  raw_ordered r'.
Proof.
  intros Hne [Hf Hc] Hwf Hnw Hstep.
  split; [exact (apply_op_fields r o r' None Hne Hf Hwf Hstep)|].
  destruct (snoc_inv _ Hne) as (pre & lr & E).
  rewrite E in Hf, Hc.
  destruct (Forall_snoc_inv _ _ _ Hf) as [_ (Hlr1 & _ & _)].
  destruct o as [val|dec|s e|key]; simpl in Hstep.
  - injection Hstep as <-. simpl. tauto.
  - rewrite (DecValue_snoc r pre lr dec E) in Hstep. simpl in Hstep.
    injection Hstep as <-. simpl.
    eapply chain_change_last; [exact Hc|]. intros p Hp. exact Hp.
  - simpl in Hwf, Hnw. destruct Hwf as [Hsr Her].
    destruct (ExcludeRange_returns r pre lr s e r' None E Hstep)
      as [[? _]|(_ & _ & _ & Hle & -> & _)]; [discriminate|].
    unfold after_exclude.
    destruct (Z.eqb_spec (start lr) s) as [Heq|Hneq]; simpl.
    + eapply chain_change_last; [exact Hc|].
      unfold before. simpl. intros p Hp. lia.
    + assert (Hs1 : in_range RT (s - 1))
        by (unfold in_range in *; lia).
      apply chain_drop, chain_snoc.
      * eapply chain_change_last; [exact Hc|].
        unfold before. simpl. intros p Hp. exact Hp.
      * unfold before. simpl. rewrite (wrap_small _ _ Hs1).
        unfold in_range in *. lia.
  - destruct (GetValue r key); simpl in Hstep; [|discriminate].
    injection Hstep as <-. now rewrite E.
Qed.

End RawOrder.

Lemma NewRangeMap_raw_ordered RT VT sz : raw_ordered (NewRangeMap RT VT sz).
Proof. apply raw_ordered_init, zero_in_range. Qed.

(** ** Values along the ranges *)

Section Values.
Context {RT VT : uintType}.
Implicit Type r : RangeMap RT VT.

Lemma ExcludeRange_open_value r lr s e r' :
  size r < -1 \/ 1 <= size r -> last (ranges r) = Some lr ->
  ExcludeRange r s e = Some (r', None) ->
  exists lr', last (ranges r') = Some lr'
              /\ start lr' = e
              /\ value lr' = wrap VT (value lr + wrap RT (e - s)).
Proof.
  intros Hs Hlast Hex. apply last_Some in Hlast as [pre E].
  destruct (ExcludeRange_returns r pre lr s e r' None E Hex)
    as [[? _]|(_ & _ & _ & _ & -> & Hcap)]; [discriminate|].
  eexists. split; [apply after_exclude_last; lia|].
  simpl. split; [reflexivity | apply wrap_add_wrap].
Qed.


(** Along a run of accepted calls. *)
Lemma run_ok_fields ops : forall r r',
  alive r -> Forall (fields_in_range RT VT) (ranges r) ->
  Forall (wf_op RT VT) ops ->
  run_ok r ops = Some r' ->
  alive r' /\ Forall (fields_in_range RT VT) (ranges r')
  /\ size r' = size r /\ halfRange r' = halfRange r.
Proof.
  induction ops as [|o ops IH]; intros r r' Ha Hf Hwf; simpl.
  - intros [= <-]. auto.
  - inversion Hwf as [|? ? Hwf1 Hwf2]; subst.
    destruct (apply_op r o) as [[r1 [err|]]|] eqn:Hstep; simpl;
      try discriminate.
    destruct (apply_op_alive r o r1 None Ha Hstep) as (Ha1 & Hs1 & Hh1).
    pose proof (apply_op_fields r o r1 None (alive_nonempty _ Ha) Hf
                  Hwf1 Hstep) as Hf1.
    intros Hrun.
    destruct (IH r1 r' Ha1 Hf1 Hwf2 Hrun) as (Ha' & Hf' & Hs' & Hh').
    split; [exact Ha'|]. split; [exact Hf'|]. split; congruence.
Qed.

Lemma run_ok_raw_ordered ops : forall r r',
  alive r -> raw_ordered r ->
  Forall (wf_op RT VT) ops -> Forall no_wrap ops ->
  run_ok r ops = Some r' ->
  raw_ordered r'.
Proof.
  induction ops as [|o ops IH]; intros r r' Ha Hr Hwf Hnw; simpl.
  - intros [= <-]. exact Hr.
  - inversion Hwf as [|? ? Hwf1 Hwf2]; subst.
    inversion Hnw as [|? ? Hnw1 Hnw2]; subst.
    destruct (apply_op r o) as [[r1 [err|]]|] eqn:Hstep; simpl;
      try discriminate.
    destruct (apply_op_alive r o r1 None Ha Hstep) as (Ha1 & _).
    apply (IH r1 r' Ha1); try assumption.
    exact (apply_op_raw_ordered r o r1 (alive_nonempty _ Ha) Hr
             Hwf1 Hnw1 Hstep).
Qed.


Lemma wrap_wrap_add t x y : wrap t (wrap t x + y) = wrap t (x + y).
Proof. unfold wrap. apply Zplus_mod_idemp_l. Qed.

Lemma run_ok_exclusions_value excl : forall r lr r',
  alive r -> last (ranges r) = Some lr ->
  run_ok r (exclusions excl) = Some r' ->
  exists lr', last (ranges r') = Some lr'
              /\ value lr' = match excl with
                              | [] => value lr
                              | _ => wrap VT (value lr + total_width RT excl)
                              end.
Proof.
  induction excl as [|[s e] excl IH]; intros r lr r' Ha Hlast; simpl.
  - intros [= <-]. eauto.
  - destruct (ExcludeRange r s e) as [[r1 [err|]]|] eqn:Hstep; simpl;
      try discriminate.
    intros Hrun.
    destruct (apply_op_alive r (OpExclude s e) r1 None Ha Hstep)
      as (Ha1 & _).
    destruct (ExcludeRange_open_value r lr s e r1
                (alive_size _ Ha) Hlast Hstep) as (lr1 & Hl1 & _ & Hv1).
    destruct (IH r1 lr1 r' Ha1 Hl1 Hrun) as (lr' & Hl' & Hv').
    exists lr'. split; [exact Hl'|]. rewrite Hv', Hv1.
    unfold width. simpl. destruct excl as [|se excl].
    + simpl. now rewrite Z.add_0_r.
    + rewrite wrap_wrap_add. f_equal. lia.
Qed.

End Values.

(** ** Lookup *)

Section Lookup.
Context {RT VT : uintType}.
Implicit Type r : RangeMap RT VT.

Lemma scan_S r key numRanges (n : nat) rv :
  ranges r !! n = Some rv ->
  scan r key numRanges (S n) =
    if negb (Z.of_nat n =? numRanges - 1) && in_closed r key rv
    then Some (value rv, None)
    else match n with
         | O => scan r key numRanges n
         | S m =>
             rvPrev ← ranges r !! m;
             if in_gap r key rvPrev rv then Some (0, Some errKeyExcluded)
             else scan r key numRanges n
         end.
Proof.
  intros Hrv. cbn [scan]. rewrite index_lookup, Hrv. cbn [mbind option_bind].
  unfold in_closed. rewrite andb_assoc.
  destruct (_ && _ && _); [reflexivity|].
  destruct n as [|m]; [reflexivity|].
  destruct (Z.gtb_spec (Z.of_nat (S m)) 0); [|lia].
  replace (Z.of_nat (S m) - 1) with (Z.of_nat m) by lia.
  rewrite index_lookup. reflexivity.
Qed.

Lemma GetValue_snoc r pre lr key :
  ranges r = pre ++ [lr] ->
  GetValue r key =
    if key >=? start lr then Some (value lr, None)
    else
      r0 ← (pre ++ [lr]) !! 0%nat;
      if key <? start r0 then Some (0, Some errKeyTooOld)
      else scan r key (len (ranges r)) (length (ranges r)).
Proof.
  intros E. unfold GetValue.
  assert (Hl : len (ranges r) = len pre + 1)
    by (rewrite E, len_app; reflexivity).
  pose proof (len_nonneg pre).
  destruct (Z.eqb_spec (len (ranges r)) 0); [lia|]. simpl.
  assert (Hi : index (ranges r) (len (ranges r) - 1) = Some lr)
    by (rewrite E; apply index_snoc).
  rewrite Hi. simpl.
  destruct (key >=? start lr); [reflexivity|].
  change 0 with (Z.of_nat 0). rewrite index_lookup, E.
  unfold len. rewrite Nat2Z.id. reflexivity.
Qed.

(** A key at or above the start of the open range, as plain integers,
    gets the value of the open range. *)
Lemma GetValue_open r lr key :
  last (ranges r) = Some lr -> start lr <= key ->
  GetValue r key = Some (value lr, None).
Proof.
  intros Hlast Hk. apply last_Some in Hlast as [pre E].
  rewrite (GetValue_snoc r pre lr key E).
  destruct (Z.geb_spec key (start lr)); [reflexivity | lia].
Qed.

(** A value returned by the loop is the value of a range that is not the
    last one and that passes the two-sided test. *)
Lemma scan_value r key (n : nat) v :
  (n <= length (ranges r))%nat ->
  scan r key (len (ranges r)) n = Some (v, None) ->
  exists (i : nat) rv,
    ranges r !! i = Some rv /\ (S i < length (ranges r))%nat
    /\ v = value rv /\ in_closed r key rv = true.
Proof.
  induction n as [|n IH]; intros Hn; [discriminate|].
  destruct (lookup_lt_is_Some_2 (ranges r) n) as [rv Hrv]; [lia|].
  rewrite (scan_S r key _ n rv Hrv).
  destruct (negb _ && _) eqn:Ht.
  - intros [= <-]. apply andb_prop in Ht as [Hi Hc].
    exists n, rv. repeat split; try assumption.
    apply negb_true_iff, Z.eqb_neq in Hi. unfold len in Hi. lia.
  - destruct n as [|m]; [apply IH; lia|].
    destruct (ranges r !! m) as [rp|]; simpl; [|discriminate].
    destruct (in_gap r key rp rv); [discriminate | apply IH; lia].
Qed.

Lemma GetValue_below_open r lr key v :
  last (ranges r) = Some lr -> key < start lr ->
  GetValue r key = Some (v, None) ->
  exists (i : nat) rv,
    ranges r !! i = Some rv /\ (S i < length (ranges r))%nat
    /\ v = value rv /\ in_closed r key rv = true.
Proof.
  intros Hlast Hk. apply last_Some in Hlast as [pre E].
  rewrite (GetValue_snoc r pre lr key E).
  destruct (Z.geb_spec key (start lr)); [lia|].
  destruct ((pre ++ [lr]) !! 0%nat) as [r0|]; simpl; [|discriminate].
  destruct (key <? start r0); [discriminate|].
  apply scan_value. lia.
Qed.

End Lookup.

(** ** When the loop of [GetValue] finds the key *)

Section Found.
Context {RT VT : uintType}.
Implicit Type r : RangeMap RT VT.

Lemma in_closed_true r key rv :
  in_range RT key -> fields_in_range RT VT rv ->
  start rv <= key <= end_ rv -> end_ rv - start rv < halfRange r ->
  in_closed r key rv = true.
Proof.
  intros Hk (Hs & He & _) Hin Hw. unfold in_closed.
  rewrite !wrap_small by (unfold in_range in *; lia).
  apply andb_true_intro. split; apply Z.ltb_lt; lia.
Qed.

Lemma in_gap_true r key rp rv :
  in_range RT key -> fields_in_range RT VT rp -> fields_in_range RT VT rv ->
  end_ rp < key < start rv -> start rv - end_ rp <= halfRange r ->
  in_gap r key rp rv = true.
Proof.
  intros Hk (_ & Hpe & _) (Hs & _ & _) Hin Hw. unfold in_gap.
  rewrite !wrap_small by (unfold in_range in *; lia).
  repeat (apply andb_true_intro; split);
    first [apply Z.ltb_lt | apply Z.gtb_lt]; lia.
Qed.

Lemma scan_found r key oldest :
  Forall (fields_in_range RT VT) (ranges r) ->
  chain (narrow (halfRange r)) (ranges r) ->
  in_range RT key ->
  ranges r !! 0%nat = Some oldest -> start oldest <= key ->
  forall (n : nat) rv,
    ranges r !! n = Some rv ->
    key < start rv
    \/ ((S n < length (ranges r))%nat /\ start rv <= key <= end_ rv) ->
    exists v err,
      scan r key (len (ranges r)) (S n) = Some (v, err)
      /\ err <> Some errKeyNotFound.
Proof.
  intros Hf Hn Hk H0 Hk0.
  rewrite chain_lookup in Hn. rewrite Forall_lookup in Hf.
  assert (Hclosed : forall (n : nat) rv,
             ranges r !! n = Some rv ->
             (S n < length (ranges r))%nat /\ start rv <= key <= end_ rv ->
             negb (Z.of_nat n =? len (ranges r) - 1) && in_closed r key rv
             = true).
  { intros n rv Hrv [Hlt Hin].
    destruct (lookup_lt_is_Some_2 (ranges r) (S n) Hlt) as [rn Hrn].
    destruct (Hn n rv rn Hrv Hrn) as [Hw _].
    apply andb_true_intro. split.
    - apply negb_true_iff, Z.eqb_neq. unfold len. lia.
    - apply in_closed_true; eauto. }
  induction n as [|m IH]; intros rv Hrv Hcase;
    rewrite (scan_S r key _ _ rv Hrv).
  - destruct Hcase as [Hlt|Hin]; [congruence + (simplify_eq; lia)|].
    rewrite (Hclosed _ _ Hrv Hin). eexists _, _. split; [reflexivity|].
    discriminate.
  - destruct (negb _ && _) eqn:Ht.
    { eexists _, _. split; [reflexivity | discriminate]. }
    destruct Hcase as [Hlt|Hin];
      [|rewrite (Hclosed _ _ Hrv Hin) in Ht; discriminate].
    assert (Hm : (m < length (ranges r))%nat)
      by (apply lookup_lt_Some in Hrv; lia).
    destruct (lookup_lt_is_Some_2 (ranges r) m Hm) as [rp Hrp].
    rewrite Hrp. cbn [mbind option_bind].
    destruct (in_gap r key rp rv) eqn:Hg.
    { eexists _, _. split; [reflexivity | discriminate]. }
    apply (IH rp Hrp).
    destruct (Hn m rp rv Hrp Hrv) as [Hn1 Hn2].
    destruct (Z.lt_ge_cases key (start rp)) as [|Hge]; [now left|].
    destruct (Z.le_gt_cases key (end_ rp)) as [|Hgt].
    + right. apply lookup_lt_Some in Hrv. split; [lia | lia].
    + assert (Hg' : in_gap r key rp rv = true)
        by (apply in_gap_true;
            [exact Hk | exact (Hf _ _ Hrp) | exact (Hf _ _ Hrv) | lia | lia]).
      congruence.
Qed.

Lemma GetValue_found r key :
  ranges r <> [] ->
  Forall (fields_in_range RT VT) (ranges r) ->
  chain (narrow (halfRange r)) (ranges r) ->
  in_range RT key ->
  exists v err,
    GetValue r key = Some (v, err) /\ err <> Some errKeyNotFound.
Proof.
  intros Hne Hf Hn Hk.
  destruct (snoc_inv _ Hne) as (pre & lr & E).
  rewrite (GetValue_snoc r pre lr key E).
  destruct (Z.geb_spec key (start lr)) as [|Hlt].
  { eexists _, _. split; [reflexivity | discriminate]. }
  assert (Hlen : (0 < length (ranges r))%nat)
    by (rewrite E, length_app; simpl; lia).
  destruct (lookup_lt_is_Some_2 (ranges r) 0 Hlen) as [oldest H0].
  rewrite <- E, H0. cbn [mbind option_bind].
  destruct (Z.ltb_spec key (start oldest)) as [|Hge].
  { eexists _, _. split; [reflexivity | discriminate]. }
  assert (Hlast : ranges r !! length pre = Some lr)
    by (rewrite E; now apply list_lookup_middle).
  replace (length (ranges r)) with (S (length pre))
    by (rewrite E, length_app; simpl; lia).
  eapply scan_found; eauto.
Qed.

End Found.

(** ** Closed ranges hold a key *)

Section HoldsAKey.
Context {RT VT : uintType}.
Implicit Type r : RangeMap RT VT.

Lemma apply_op_holds_a_key r o r' err :
  ranges r <> [] -> starts_in_range r -> chain holds_a_key (ranges r) ->
  wf_op RT VT o ->
  apply_op r o = Some (r', err) ->
  starts_in_range r' /\ chain holds_a_key (ranges r').
Proof.
  intros Hne Hf Hc Hwf.
  destruct (snoc_inv _ Hne) as (pre & lr & E).
  unfold starts_in_range in *. rewrite E in Hf, Hc.
  destruct (Forall_snoc_inv _ _ _ Hf) as [Hfpre Hlr].
  assert (Hsame : starts_in_range r /\ chain holds_a_key (ranges r))
    by (unfold starts_in_range; rewrite E; auto).
  destruct o as [val|dec|s e|key]; simpl.
  - intros [= <- <-]. split; simpl; [|tauto].
    constructor; [apply zero_in_range | constructor].
  - rewrite (DecValue_snoc r pre lr dec E). simpl. intros [= <- <-].
    split; simpl.
    + apply Forall_snoc; [exact Hfpre | exact Hlr].
    + eapply chain_change_last; [exact Hc|]. intros p Hp. exact Hp.
  - simpl in Hwf. destruct Hwf as [Hsr Her]. intros Hex.
    destruct (ExcludeRange_returns r pre lr s e r' err E Hex)
      as [[_ ->]|(_ & _ & _ & Hle & -> & _)]; [exact Hsame|].
    unfold after_exclude.
    destruct (Z.eqb_spec (start lr) s) as [Heq|Hneq]; split; simpl.
    + apply Forall_snoc; [exact Hfpre | exact Her].
    + eapply chain_change_last; [exact Hc|]. intros p Hp. exact Hp.
    + apply Forall_drop, Forall_snoc; [apply Forall_snoc|];
        [exact Hfpre | exact Hlr | exact Her].
    + apply chain_drop, chain_snoc.
      * eapply chain_change_last; [exact Hc|]. intros p Hp. exact Hp.
      * unfold holds_a_key. simpl.
        rewrite wrap_small by (unfold in_range in *; simpl in *; lia).
        lia.
  - destruct (GetValue r key); simpl; [|discriminate].
    intros [= <- <-]. exact Hsame.
Qed.

Lemma run_holds_a_key ops : forall r r',
  alive r -> starts_in_range r -> chain holds_a_key (ranges r) ->
  Forall (wf_op RT VT) ops ->
  run r ops = Some r' ->
  chain holds_a_key (ranges r').
Proof.
  induction ops as [|o ops IH]; intros r r' Ha Hf Hc Hwf; simpl.
  - intros [= <-]. exact Hc.
  - inversion Hwf as [|? ? Hwf1 Hwf2]; subst.
    destruct (apply_op r o) as [[r1 err]|] eqn:Hstep; simpl; [|discriminate].
    destruct (apply_op_alive r o r1 err Ha Hstep) as (Ha1 & _).
    destruct (apply_op_holds_a_key r o r1 err (alive_nonempty _ Ha) Hf Hc
                Hwf1 Hstep) as [Hf1 Hc1].
    now apply IH.
Qed.

End HoldsAKey.

Lemma NewRangeMap_holds_a_key RT VT sz ops (r : RangeMap RT VT) :
  Forall (wf_op RT VT) ops ->
  run (NewRangeMap RT VT sz) ops = Some r ->
  chain holds_a_key (ranges r).
Proof.
  intros Hwf Hrun.
  apply (run_holds_a_key ops (NewRangeMap RT VT sz));
    [apply NewRangeMap_alive | | simpl; tauto | exact Hwf | exact Hrun].
  constructor; [apply zero_in_range | constructor].
Qed.

(** ** Filling a map *)

Section Filling.
Context {RT VT : uintType}.
Implicit Type r : RangeMap RT VT.



End Filling.

(** A split on a map of capacity 1 leaves the closed range and the new
    open range, whatever was kept before. *)
Lemma split_capacity_one {RT VT} (r : RangeMap RT VT) pre o (s e : Z) r' :
  size r = 1 -> ranges r = pre ++ [o] -> start o < s ->
  ExcludeRange r s e = Some (r', None) ->
  r' = set_ranges r
         [closed_at (RT := RT) o s; opened (RT := RT) (VT := VT) o s e 0].
Proof.
  intros Hs E Hlt Hex.
  destruct (ExcludeRange_accepted r pre o s e r' E ltac:(lia) Hex)
    as (_ & _ & _ & ->).
  unfold after_exclude. destruct (Z.eqb_spec (start o) s); [lia|].
  rewrite Hs. replace (Z.to_nat (len pre + 1 - 1)) with (length pre)
    by (unfold len; lia).
  rewrite <- app_assoc. now rewrite drop_app_length.
Qed.

(** * Properties of the operations *)

(** ** Reset *)

(** C7. After [ClearAndResetValue v], whatever the map was before, there is
    exactly one range, the open range, with start 0 and value [v], and
    [GetValue] returns [v] for every key of the key type. *)
Theorem reset_single_open_range RT VT (r : RangeMap RT VT) (v key : Z) :
  in_range RT key ->
  ranges (ClearAndResetValue r v) = [ {| start := 0; end_ := 0; value := v |} ]
  /\ GetValue (ClearAndResetValue r v) key = Some (v, None).
Proof.
  intros [Hk _]. split; [reflexivity|].
  apply (GetValue_open _ {| start := 0; end_ := 0; value := v |});
    [reflexivity | exact Hk].
Qed.

Lemma reset_single_open_range_witness :
  in_range U32 4000000000
  /\ GetValue
       (ClearAndResetValue
          (mkRangeMap (RT := U32) (VT := U64) 2147483648 2
             [ {| start := 10; end_ := 19; value := 10 |};
               {| start := 25; end_ := 0; value := 15 |} ]) 7)
       4000000000 = Some (7, None).
Proof.
  assert (H : in_range U32 4000000000) by (vm_compute; split; congruence).
  split; [exact H|].
  exact (proj2 (reset_single_open_range U32 U64 _ 7 4000000000 H)).
Defined.

(** ** Number of ranges *)




(** ** Non-emptiness *)

(** C10. Every call (construction, reset, decrement of the open value,
    exclusion whether accepted or rejected, lookup) leaves at least one
    range in the map.  In every state that calls on a fresh map have
    returned, whatever the capacity: the list of ranges is not empty; the
    access to its last element, as [DecValue] and [ExcludeRange] make it, is
    in bounds; [DecValue] and [GetValue] return; [ExcludeRange] leaves a
    range when it returns, and it returns unless the capacity stored is the
    smallest [int]; and [prune], when it returns, keeps the last range.
    For every argument below [2^63 - 512] given to [NewRangeMap], moreover,
    no call panics at all: the calls return, and so do [ExcludeRange] and
    [prune] after them. *)
Theorem ranges_never_empty RT VT (sz : Z) (ops : list op) :
  (forall r,
     run (NewRangeMap RT VT sz) ops = Some r ->
     ranges r <> []
     /\ is_Some (index (ranges r) (len (ranges r) - 1))
     /\ (forall dec, is_Some (DecValue r dec))
     /\ (forall key, is_Some (GetValue r key))
     /\ (forall s e r' err,
           ExcludeRange r s e = Some (r', err) -> ranges r' <> [])
     /\ (forall s e, ExcludeRange r s e = None -> size r = minInt)
     /\ (forall rs x r',
           prune (set_ranges r (rs ++ [x])) = Some r' ->
           last (ranges r') = Some x))
  /\ (sz < 2 ^ 63 - 512 ->
      exists r,
        run (NewRangeMap RT VT sz) ops = Some r
        /\ (forall s e, is_Some (ExcludeRange r s e))
        /\ (forall rs x, is_Some (prune (set_ranges r (rs ++ [x]))))).
Proof.
  split.
  - intros r Hrun.
    destruct (run_alive ops _ r (NewRangeMap_alive RT VT sz) Hrun)
      as (Ha & Hsize & _).
    pose proof (alive_nonempty _ Ha) as Hne.
    destruct (index_last_is_Some _ Hne) as (lr & Hi & _).
    split; [exact Hne|]. split; [rewrite Hi; eauto|].
    split; [|split; [|split; [|split]]].
    + intros dec. unfold DecValue. rewrite Hi. simpl. eauto.
    + intros key. apply GetValue_total.
    + intros s e r' err Hex.
      now destruct (apply_op_alive r (OpExclude s e) r' err Ha Hex)
        as ([Hne' _] & _).
    + intros s e Hex.
      destruct (NewRangeMap_stored RT VT sz) as [Hmin|[Hpos _]];
        [congruence|].
      destruct (snoc_inv _ Hne) as (pre & lr' & E).
      rewrite (ExcludeRange_cases r pre lr' s e E) in Hex by lia.
      destruct (_ || _ || _); discriminate.
    + intros rs x r' Hp. apply prune_Some in Hp as [Hge ->].
      pose proof (alive_size _ Ha) as Hs.
      cbn [ranges set_ranges size] in *.
      rewrite last_drop; [apply last_snoc|].
      rewrite length_app. unfold len. rewrite length_app. simpl. lia.
  - intros Hsz.
    destruct (run_bounded ops _ (NewRangeMap_bounded RT VT sz Hsz))
      as (r & Hrun & Hb & _).
    exists r. split; [exact Hrun|]. split.
    + intros s e.
      destruct (apply_op_bounded r (OpExclude s e) Hb)
        as (r' & err & Hstep & _).
      simpl in Hstep. rewrite Hstep. eauto.
    + intros rs x.
      destruct (prune_bounded r rs x (bounded_size _ Hb))
        as (r' & Hp & _).
      rewrite Hp. eauto.
Qed.

Lemma ranges_never_empty_witness :
  (run (NewRangeMap U32 U32 9223372036854775807) [OpExclude 0 10; OpDec 3]
   = Some (mkRangeMap 2147483648 (-9223372036854775808)
             [ {| start := 10; end_ := 0; value := 7 |} ])
   /\ ranges (mkRangeMap (RT := U32) (VT := U32) 2147483648
                (-9223372036854775808)
                [ {| start := 10; end_ := 0; value := 7 |} ]) <> []
   /\ is_Some (DecValue
                 (mkRangeMap (RT := U32) (VT := U32) 2147483648
                    (-9223372036854775808)
                    [ {| start := 10; end_ := 0; value := 7 |} ]) 9))
  /\ 1 < 2 ^ 63 - 512
  /\ exists r : RangeMap U32 U32,
       run (NewRangeMap U32 U32 1)
         [OpExclude 5 6; OpGet 2; OpExclude 9 12; OpReset 4; OpDec 7;
          OpExclude 3 3; OpExclude 3 4] = Some r
       /\ (forall s e, is_Some (ExcludeRange r s e))
       /\ (forall rs x, is_Some (prune (set_ranges r (rs ++ [x])))).
Proof.
  assert (Hrun : run (NewRangeMap U32 U32 9223372036854775807)
                   [OpExclude 0 10; OpDec 3]
                 = Some (mkRangeMap 2147483648 (-9223372036854775808)
                           [ {| start := 10; end_ := 0; value := 7 |} ]))
    by (vm_compute; reflexivity).
  assert (H : 1 < 2 ^ 63 - 512) by lia.
  destruct (proj1 (ranges_never_empty U32 U32 9223372036854775807
                     [OpExclude 0 10; OpDec 3]) _ Hrun)
    as (Hne & _ & Hdec & _).
  split; [split; [exact Hrun | split; [exact Hne | exact (Hdec 9)]]|].
  split; [exact H|].
  exact (proj2 (ranges_never_empty U32 U32 1
                  [OpExclude 5 6; OpGet 2; OpExclude 9 12; OpReset 4;
                   OpDec 7; OpExclude 3 3; OpExclude 3 4]) H).
Defined.

(** ** Value of the open range *)

(** C8. On a fresh map, after any sequence of accepted [ExcludeRange] calls
    and nothing else, the value of the open (last) range is the sum of the
    widths [endExclusive - startInclusive] (each taken modulo [2^W] of the
    key type) of all the exclusions, in the modular arithmetic of the value
    type. *)
Theorem open_value_total_width RT VT (sz : Z) (excl : list (Z * Z))
    (r : RangeMap RT VT) :
  run_ok (NewRangeMap RT VT sz) (exclusions excl) = Some r ->
  exists lr,
    last (ranges r) = Some lr /\ value lr = wrap VT (total_width RT excl).
Proof.
  intros Hrun.
  destruct (run_ok_exclusions_value excl (NewRangeMap RT VT sz)
              {| start := 0; end_ := 0; value := 0 |} r
              (NewRangeMap_alive RT VT sz) eq_refl Hrun)
    as (lr & Hl & Hv).
  exists lr. split; [exact Hl|]. rewrite Hv.
  destruct excl; [|reflexivity].
  simpl. symmetry. apply Z.mod_0_l. pose proof (modulus_pos VT). lia.
Qed.

Lemma open_value_total_width_witness :
  exists lr,
    last [ {| start := 15; end_ := 4294967289; value := 15 |};
           {| start := 2; end_ := 0; value := 23 |} ] = Some lr
    /\ value lr
       = wrap U64 (total_width U32 [(0, 10); (10, 15); (4294967290, 2)]).
Proof.
  apply (open_value_total_width U32 U64 1
           [(0, 10); (10, 15); (4294967290, 2)]
           (mkRangeMap 2147483648 1
              [ {| start := 15; end_ := 4294967289; value := 15 |};
                {| start := 2; end_ := 0; value := 23 |} ])).
  vm_compute. reflexivity.
Defined.

(** ** Merge and split *)




(** ** Rejected exclusions *)

(** C3, as stated, fails: an exclusion whose width is exactly [halfRange]
    is accepted. *)
Lemma exclude_half_range_accepted :
  halfRange (NewRangeMap U32 U32 1) <= wrap U32 (2147483648 - 0)
  /\ ExcludeRange (NewRangeMap U32 U32 1) 0 2147483648
     = Some (set_ranges (NewRangeMap U32 U32 1)
               [ {| start := 2147483648; end_ := 0; value := 2147483648 |} ],
             None).
Proof. vm_compute. split; [congruence | reflexivity]. Qed.

(** C3, amended. [ExcludeRange(startInclusive, endExclusive)] fails with
    [errReversedOrder] in exactly these cases: [endExclusive] equals
    [startInclusive], the width [endExclusive - startInclusive] (modulo
    [2^W]) is strictly greater than [halfRange], or [startInclusive] is
    below the start of the open range as plain unsigned integers; it
    returns no other error, and whenever it fails the map is unchanged. *)
Theorem ExcludeRange_rejected_iff RT VT (r : RangeMap RT VT) lr (s e : Z) :
  last (ranges r) = Some lr ->
  (ExcludeRange r s e = Some (r, Some errReversedOrder)
   <-> e = s \/ halfRange r < wrap RT (e - s) \/ s < start lr)
  /\ (forall r' err,
        ExcludeRange r s e = Some (r', Some err) ->
        r' = r /\ err = errReversedOrder).
Proof.
  intros Hlast. split; [|apply ExcludeRange_error].
  apply last_Some in Hlast as [pre E].
  rewrite (ExcludeRange_snoc r pre lr s e E).
  destruct (Z.eqb_spec e s) as [He|He]; [tauto|].
  destruct (Z.gtb_spec (wrap RT (e - s)) (halfRange r)) as [Hw|Hw];
    [tauto|].
  cbn [orb].
  destruct (Z.gtb_spec (start lr) s) as [Hs|Hs]; [tauto|].
  cbv zeta. split; [|lia].
  destruct (start lr =? s); [discriminate|].
  destruct (prune _); simpl; discriminate.
Qed.

Lemma ExcludeRange_rejected_iff_witness :
  last (ranges (mkRangeMap (RT := U32) (VT := U32) 2147483648 2
                  [ {| start := 10; end_ := 19; value := 10 |};
                    {| start := 25; end_ := 0; value := 15 |} ]))
  = Some {| start := 25; end_ := 0; value := 15 |}
  /\ ExcludeRange
       (mkRangeMap (RT := U32) (VT := U32) 2147483648 2
          [ {| start := 10; end_ := 19; value := 10 |};
            {| start := 25; end_ := 0; value := 15 |} ]) 22 30
     = Some (mkRangeMap 2147483648 2
               [ {| start := 10; end_ := 19; value := 10 |};
                 {| start := 25; end_ := 0; value := 15 |} ],
             Some errReversedOrder).
Proof.
  split; [reflexivity|].
  apply (proj1 (ExcludeRange_rejected_iff U32 U32
                  (mkRangeMap 2147483648 2
                     [ {| start := 10; end_ := 19; value := 10 |};
                       {| start := 25; end_ := 0; value := 15 |} ])
                  {| start := 25; end_ := 0; value := 15 |} 22 30 eq_refl)).
  right. right. simpl. lia.
Defined.

(** ** The fallback of [GetValue] *)

(** C9, as stated, fails: one accepted exclusion on a fresh map is enough
    for [GetValue] to reach its fallback. *)
Lemma key_not_found_reachable :
  exists r : RangeMap U32 U32,
    run_ok (NewRangeMap U32 U32 2) [OpExclude 2147483653 2147483654] = Some r
    /\ GetValue r 0 = Some (0, Some errKeyNotFound).
Proof.
  eexists. split; [vm_compute; reflexivity|].
  vm_compute. reflexivity.
Qed.

(** C9, amended. In a state reached from construction by resets,
    decrements of the open value and accepted exclusions, and in which, as
    plain integers, [end - start < halfRange] for every closed range and
    [start - end <= halfRange] from the end of every closed range to the
    start of the next range, [GetValue] does not return [errKeyNotFound]:
    every lookup gives a value, [errKeyTooOld] or [errKeyExcluded]. *)
Theorem GetValue_never_not_found RT VT (sz : Z) (ops : list op)
    (r : RangeMap RT VT) (key : Z) :
  Forall (wf_op RT VT) ops ->
  run_ok (NewRangeMap RT VT sz) ops = Some r ->
  chain (narrow (halfRange r)) (ranges r) ->
  in_range RT key ->
  exists v err, GetValue r key = Some (v, err) /\ err <> Some errKeyNotFound.
Proof.
  intros Hwf Hrun Hn Hk.
  destruct (run_ok_fields ops _ r (NewRangeMap_alive RT VT sz)
              (raw_fields _ (NewRangeMap_raw_ordered RT VT sz)) Hwf Hrun)
    as (Ha & Hf & _).
  apply GetValue_found; try assumption. apply Ha.
Qed.

Lemma GetValue_never_not_found_witness :
  exists v err,
    GetValue
      (mkRangeMap (RT := U32) (VT := U32) 2147483648 2
         [ {| start := 4294967290; end_ := 4294967293;
              value := 4294967290 |};
           {| start := 1; end_ := 0; value := 4294967293 |} ]) 4294967292
    = Some (v, err)
    /\ err <> Some errKeyNotFound.
Proof.
  apply (GetValue_never_not_found U32 U32 2
           [OpExclude 0 2147483648; OpExclude 2147483648 4294967290;
            OpExclude 4294967294 1]).
  - repeat constructor; vm_compute; congruence.
  - vm_compute. reflexivity.
  - simpl. unfold narrow. simpl. lia.
  - vm_compute. split; congruence.
Defined.

(** ** Order of the ranges *)




(** ** The open range *)

(** C1, as stated, fails: after [ExcludeRange(2^32 - 5, 2^32 - 2)] on a
    fresh map the key 0 is at circular distance 2 from the start of the
    open range, and [GetValue(0)] is not the value of the open range.  On a
    fresh map built with the largest capacity, [2^63 - 1], this call of
    [ExcludeRange] panics in [prune]. *)
Lemma open_range_not_circular :
  (exists (r : RangeMap U32 U32) lr,
     run_ok (NewRangeMap U32 U32 2) [OpExclude 4294967291 4294967294] = Some r
     /\ last (ranges r) = Some lr
     /\ wrap U32 (0 - start lr) < halfRange r
     /\ GetValue r 0 <> Some (value lr, None))
  /\ ExcludeRange (NewRangeMap U32 U32 9223372036854775807)
       4294967291 4294967294 = None.
Proof.
  split; [|vm_compute; reflexivity].
  eexists _, _. split; [vm_compute; reflexivity|].
  split; [reflexivity|]. split; vm_compute; congruence.
Qed.

(** C1, amended. [GetValue] takes a key for one of the open range exactly
    when the key is at or above the start of the open range as plain
    unsigned integers, and then returns the value of the open range; below
    that start a value it returns is that of a closed range passing the
    two-sided test.  In particular, for both key widths [W], after
    [ExcludeRange(2^W - 5, 2^W - 2)] on a fresh map built with a capacity
    below [2^63 - 512], the keys [2^W - 2] and [2^W - 1] get the value 3 of
    the open range, and the keys 0 and 1, which are below its start, do
    not. *)
Theorem open_range_raw_order RT VT (r : RangeMap RT VT) lr (key sz : Z) :
  last (ranges r) = Some lr ->
  (start lr <= key -> GetValue r key = Some (value lr, None))
  /\ (key < start lr ->
      forall v, GetValue r key = Some (v, None) ->
      exists (i : nat) rv,
        ranges r !! i = Some rv /\ (S i < length (ranges r))%nat
        /\ v = value rv
        /\ wrap RT (key - start rv) < halfRange r
        /\ wrap RT (end_ rv - key) < halfRange r)
  /\ (sz < 2 ^ 63 - 512 ->
      exists r' : RangeMap RT VT,
        ExcludeRange (NewRangeMap RT VT sz) (modulus RT - 5) (modulus RT - 2)
        = Some (r', None)
        /\ GetValue r' (modulus RT - 2) = Some (3, None)
        /\ GetValue r' (modulus RT - 1) = Some (3, None)
        /\ GetValue r' 0 <> Some (3, None)
        /\ GetValue r' 1 <> Some (3, None)).
Proof.
  intros Hlast. split; [apply GetValue_open; exact Hlast|]. split.
  - intros Hk v Hv.
    destruct (GetValue_below_open r lr key v Hlast Hk Hv)
      as (i & rv & Hi & Hlt & Hval & Hc).
    exists i, rv. apply andb_prop in Hc as [Hc1 Hc2].
    apply Z.ltb_lt in Hc1, Hc2. auto.
  - intros Hsz.
    destruct (NewRangeMap_size_near RT VT sz Hsz) as [[Hs _] _].
    rewrite (NewRangeMap_unfold RT VT sz).
    revert Hs. generalize (size (NewRangeMap RT VT sz)). intros n Hs.
    rewrite (ExcludeRange_cases _ [] {| start := 0; end_ := 0; value := 0 |})
      by (reflexivity || (simpl; lia)).
    assert (Hdrop : Z.to_nat (len (@nil rangeVal) + 1 - n) = 0%nat)
      by (unfold len; simpl length; lia).
    unfold after_exclude. cbn [size]. rewrite Hdrop. clear Hs Hdrop.
    unfold set_ranges. cbn [halfRange size ranges].
    destruct RT, VT; eexists; (split; [vm_compute; reflexivity|]);
      vm_compute; repeat split; congruence.
Qed.

Lemma open_range_raw_order_witness :
  last (ranges (mkRangeMap (RT := U64) (VT := U32) 9223372036854775808 2
                  [ {| start := 10; end_ := 19; value := 10 |};
                    {| start := 25; end_ := 0; value := 15 |} ]))
  = Some {| start := 25; end_ := 0; value := 15 |}
  /\ GetValue
       (mkRangeMap (RT := U64) (VT := U32) 9223372036854775808 2
          [ {| start := 10; end_ := 19; value := 10 |};
            {| start := 25; end_ := 0; value := 15 |} ])
       18446744073709551615
     = Some (15, None)
  /\ 2 < 2 ^ 63 - 512
  /\ exists r' : RangeMap U64 U32,
       ExcludeRange (NewRangeMap U64 U32 2) (modulus U64 - 5)
         (modulus U64 - 2) = Some (r', None)
       /\ GetValue r' (modulus U64 - 2) = Some (3, None)
       /\ GetValue r' (modulus U64 - 1) = Some (3, None)
       /\ GetValue r' 0 <> Some (3, None)
       /\ GetValue r' 1 <> Some (3, None).
Proof.
  assert (H : 2 < 2 ^ 63 - 512) by lia.
  destruct (open_range_raw_order U64 U32
              (mkRangeMap 9223372036854775808 2
                 [ {| start := 10; end_ := 19; value := 10 |};
                   {| start := 25; end_ := 0; value := 15 |} ])
              {| start := 25; end_ := 0; value := 15 |}
              18446744073709551615 2 eq_refl) as (Hopen & _ & Hfresh).
  split; [reflexivity|]. split; [apply Hopen; simpl; lia|].
  split; [exact H | exact (Hfresh H)].
Defined.

(** ** Eviction *)

(** C6, as stated, fails.  With capacity 1 and three splitting exclusions:
    a key of the retained closed range gets [errKeyNotFound] when that
    range spans more than half of the key space; and a key of the evicted
    oldest range gets the value of the open range when the last exclusion
    runs over the end of the key space. *)
Lemma eviction_lookup_broken :
  (exists (r : RangeMap U32 U32) c o,
     run_ok (NewRangeMap U32 U32 1)
       [OpExclude 1 2; OpExclude 3 4; OpExclude 2147483658 2147483659]
     = Some r
     /\ ranges r = [c; o] /\ start c <= 4 <= end_ c
     /\ GetValue r 4 = Some (0, Some errKeyNotFound))
  /\ (exists (r1 r : RangeMap U32 U32) c1 o1 o,
        run_ok (NewRangeMap U32 U32 1) [OpExclude 5 6] = Some r1
        /\ ranges r1 = [c1; o1] /\ start c1 <= 3 <= end_ c1
        /\ run_ok r1 [OpExclude 7 2147483648; OpExclude 4294967295 1] = Some r
        /\ last (ranges r) = Some o
        /\ GetValue r 3 = Some (value o, None)).
Proof.
  split.
  - eexists _, _, _. split; [vm_compute; reflexivity|].
    split; [reflexivity|]. split; [simpl; lia|]. vm_compute. reflexivity.
  - eexists _, _, _, _, _. split; [vm_compute; reflexivity|].
    split; [reflexivity|]. split; [simpl; lia|].
    split; [vm_compute; reflexivity|]. split; [reflexivity|].
    vm_compute. reflexivity.
Qed.

(** C6, amended. With capacity 1, after three accepted splitting exclusions
    on a fresh map, each starting strictly after the start of the current
    open range, none running over the end of the key space, and the last
    one leaving a closed range of at most [halfRange] keys: [GetValue] fails
    with [errKeyTooOld] on every key of the oldest, evicted closed range
    [0 .. s1 - 1], returns the value of the retained closed range
    [e2 .. s3 - 1] on every key of it, and the value of the open range on
    every key from its start [e3] on. *)
Theorem eviction_capacity_one RT VT (sz s1 e1 s2 e2 s3 e3 : Z)
    (r : RangeMap RT VT) :
  sz <= 1 -> in_range RT e3 ->
  0 < s1 -> s1 < e1 -> e1 < s2 -> s2 < e2 -> e2 < s3 -> s3 < e3 ->
  s3 - e2 <= halfRange (NewRangeMap RT VT sz) ->
  run_ok (NewRangeMap RT VT sz)
    [OpExclude s1 e1; OpExclude s2 e2; OpExclude s3 e3] = Some r ->
  (exists (r1 : RangeMap RT VT) o1,
     ExcludeRange (NewRangeMap RT VT sz) s1 e1 = Some (r1, None)
     /\ ranges r1 = [ {| start := 0; end_ := s1 - 1; value := 0 |}; o1 ])
  /\ exists c o,
       ranges r = [c; o]
       /\ start c = e2 /\ end_ c = s3 - 1 /\ start o = e3
       /\ (forall k, 0 <= k <= s1 - 1 ->
           GetValue r k = Some (0, Some errKeyTooOld))
       /\ (forall k, e2 <= k <= s3 - 1 ->
           GetValue r k = Some (value c, None))
       /\ (forall k, e3 <= k -> GetValue r k = Some (value o, None)).
Proof.
  intros Hsz He3 H1 H2 H3 H4 H5 H6 Hw Hrun.
  set (r0 := NewRangeMap RT VT sz) in *.
  assert (Hs0 : size r0 = 1) by exact (NewRangeMap_size_small RT VT sz Hsz).
  set (lr0 := {| start := 0; end_ := 0; value := 0 |}).
  apply run_ok_exclude in Hrun as (r1 & Hx1 & Hrun).
  apply run_ok_exclude in Hrun as (r2 & Hx2 & Hrun).
  apply run_ok_exclude in Hrun as (r3 & Hx3 & [= <-]).
  pose proof (split_capacity_one r0 [] lr0 s1 e1 r1 Hs0 eq_refl H1 Hx1) as E1.
  set (o1 := opened (RT := RT) (VT := VT) lr0 s1 e1 0) in *.
  assert (Hw1 : wrap RT (s1 - 1) = s1 - 1)
    by (apply wrap_small; unfold in_range in *; lia).
  assert (Hw3 : wrap RT (s3 - 1) = s3 - 1)
    by (apply wrap_small; unfold in_range in *; lia).
  split.
  { exists r1, o1. split; [exact Hx1|]. rewrite E1. simpl.
    unfold closed_at. simpl. now rewrite Hw1. }
  assert (Hs1 : size r1 = 1) by (rewrite E1; exact Hs0).
  assert (Hr1 : ranges r1 = [closed_at (RT := RT) lr0 s1] ++ [o1])
    by (rewrite E1; reflexivity).
  pose proof (split_capacity_one r1 _ o1 s2 e2 r2 Hs1 Hr1 H3 Hx2) as E2.
  set (o2 := opened (RT := RT) (VT := VT) o1 s2 e2 0) in *.
  assert (Hs2 : size r2 = 1) by (rewrite E2; exact Hs1).
  assert (Hr2 : ranges r2 = [closed_at (RT := RT) o1 s2] ++ [o2])
    by (rewrite E2; reflexivity).
  pose proof (split_capacity_one r2 _ o2 s3 e3 r3 Hs2 Hr2 H5 Hx3) as E3.
  set (c := closed_at (RT := RT) o2 s3) in *.
  set (o := opened (RT := RT) (VT := VT) o2 s3 e3 0) in *.
  assert (Hr3 : ranges r3 = [c] ++ [o]) by (rewrite E3; reflexivity).
  assert (Hh : halfRange r3 = halfRange r0)
    by (rewrite E3, E2, E1; reflexivity).
  assert (Hc : start c = e2 /\ end_ c = s3 - 1)
    by (split; [reflexivity | exact Hw3]).
  destruct Hc as [Hcs Hce].
  assert (Hos : start o = e3) by reflexivity.
  exists c, o. split; [exact Hr3|]. split; [exact Hcs|].
  split; [exact Hce|]. split; [exact Hos|].
  clearbody c o. clear E1 E2 E3 Hr1 Hr2 Hx1 Hx2 Hx3.
  split; [|split].
  - intros k Hk. rewrite (GetValue_snoc r3 [c] o k Hr3), Hos.
    destruct (Z.geb_spec k e3); [lia|]. simpl. rewrite Hcs.
    destruct (Z.ltb_spec k e2); [reflexivity | lia].
  - intros k Hk. rewrite (GetValue_snoc r3 [c] o k Hr3), Hos.
    destruct (Z.geb_spec k e3); [lia|]. simpl. rewrite Hcs.
    destruct (Z.ltb_spec k e2); [lia|].
    rewrite Hr3. simpl length.
    rewrite (scan_S r3 k _ 1 o) by (rewrite Hr3; reflexivity).
    replace (Z.of_nat 1 =? len ([c] ++ [o]) - 1) with true by reflexivity.
    cbn [negb andb]. rewrite Hr3.
    cbn [lookup list_lookup app mbind option_bind].
    assert (Hgap : in_gap r3 k c o = false).
    { unfold in_gap. rewrite Hce.
      rewrite wrap_sub by (unfold in_range in *; lia).
      destruct (Z.leb_spec (s3 - 1) k).
      - replace (k - (s3 - 1)) with 0 by lia. reflexivity.
      - assert (Hge : halfRange r3 <= k - (s3 - 1) + modulus RT).
        { rewrite Hh in *. simpl in Hw |- *. rewrite (modulus_half RT). lia. }
        destruct (Z.ltb_spec (k - (s3 - 1) + modulus RT) (halfRange r3));
          [lia|]. now rewrite andb_false_r. }
    rewrite Hgap.
    rewrite (scan_S r3 k _ 0 c) by (rewrite Hr3; reflexivity).
    replace (Z.of_nat 0 =? len ([c] ++ [o]) - 1) with false by reflexivity.
    assert (Hin : in_closed r3 k c = true).
    { unfold in_closed. rewrite Hcs, Hce.
      rewrite !wrap_small by (unfold in_range in *; lia).
      rewrite Hh. apply andb_true_intro.
      split; apply Z.ltb_lt; lia. }
    rewrite Hin. reflexivity.
  - intros k Hk. apply GetValue_open; [rewrite Hr3; reflexivity | lia].
Qed.

Lemma eviction_capacity_one_witness :
  ranges (mkRangeMap (RT := U32) (VT := U32) 2147483648 1
            [ {| start := 4; end_ := 9; value := 2 |};
              {| start := 11; end_ := 0; value := 3 |} ])
  = [ {| start := 4; end_ := 9; value := 2 |};
      {| start := 11; end_ := 0; value := 3 |} ]
  /\ exists c o,
       ranges (mkRangeMap (RT := U32) (VT := U32) 2147483648 1
                 [ {| start := 4; end_ := 9; value := 2 |};
                   {| start := 11; end_ := 0; value := 3 |} ]) = [c; o]
       /\ start c = 4 /\ end_ c = 10 - 1 /\ start o = 11
       /\ (forall k, 0 <= k <= 1 - 1 ->
           GetValue (mkRangeMap (RT := U32) (VT := U32) 2147483648 1
                       [ {| start := 4; end_ := 9; value := 2 |};
                         {| start := 11; end_ := 0; value := 3 |} ]) k
           = Some (0, Some errKeyTooOld))
       /\ (forall k, 4 <= k <= 10 - 1 ->
           GetValue (mkRangeMap (RT := U32) (VT := U32) 2147483648 1
                       [ {| start := 4; end_ := 9; value := 2 |};
                         {| start := 11; end_ := 0; value := 3 |} ]) k
           = Some (value c, None))
       /\ (forall k, 11 <= k ->
           GetValue (mkRangeMap (RT := U32) (VT := U32) 2147483648 1
                       [ {| start := 4; end_ := 9; value := 2 |};
                         {| start := 11; end_ := 0; value := 3 |} ]) k
           = Some (value o, None)).
Proof.
  split; [reflexivity|].
  refine (proj2 (eviction_capacity_one U32 U32 1 1 2 3 4 10 11 _
                   _ _ _ _ _ _ _ _ _ _)).
  - lia.
  - vm_compute. split; congruence.
  - lia.
  - lia.
  - lia.
  - lia.
  - lia.
  - lia.
  - vm_compute. congruence.
  - vm_compute. reflexivity.
Defined.

(** * Further properties *)

(** ** What the loop of [GetValue] can return *)

Section Outcomes.
Context {RT VT : uintType}.
Implicit Type r : RangeMap RT VT.

(** An error returned by the loop comes with the value 0; it is
    [errKeyNotFound], or [errKeyExcluded] from the gap test between two
    consecutive ranges. *)
Lemma scan_error r key (n : nat) v err :
  (n <= length (ranges r))%nat ->
  scan r key (len (ranges r)) n = Some (v, Some err) ->
  v = 0
  /\ (err = errKeyNotFound
      \/ (err = errKeyExcluded
          /\ exists (m : nat) rp rv,
               ranges r !! m = Some rp /\ ranges r !! S m = Some rv
               /\ in_gap r key rp rv = true)).
Proof.
  induction n as [|n IH]; intros Hn.
  - simpl. intros [= <- <-]. auto.
  - destruct (lookup_lt_is_Some_2 (ranges r) n) as [rv Hrv]; [lia|].
    rewrite (scan_S r key _ n rv Hrv).
    destruct (negb _ && _); [discriminate|].
    destruct n as [|m]; [apply IH; lia|].
    destruct (ranges r !! m) as [rp|] eqn:Hrp; simpl; [|discriminate].
    destruct (in_gap r key rp rv) eqn:Hg; [|apply IH; lia].
    intros [= <- <-]. split; [reflexivity|]. right.
    split; [reflexivity|]. eauto 6.
Qed.

(** With [start <= end] in the plain order and [halfRange] at most half of
    the key space, the two-sided test holds only for keys of the range. *)
Lemma in_closed_sound r key rv :
  2 * halfRange r <= modulus RT ->
  in_range RT key -> fields_in_range RT VT rv -> start rv <= end_ rv ->
  in_closed r key rv = true ->
  start rv <= key <= end_ rv.
Proof.
  intros Hh Hk (Hs & He & _) Hle Hc. unfold in_closed in Hc.
  apply andb_prop in Hc as [H1 H2]. apply Z.ltb_lt in H1, H2.
  rewrite wrap_sub in H1, H2 by assumption.
  unfold in_range in *.
  destruct (Z.leb_spec (start rv) key), (Z.leb_spec key (end_ rv)); lia.
Qed.

(** Likewise the gap test holds only for keys strictly between the end of
    the earlier range and the start of the later one. *)
Lemma in_gap_sound r key rp rv :
  2 * halfRange r <= modulus RT ->
  in_range RT key -> fields_in_range RT VT rp -> fields_in_range RT VT rv ->
  end_ rp < start rv ->
  in_gap r key rp rv = true ->
  end_ rp < key < start rv.
Proof.
  intros Hh Hk (_ & Hpe & _) (Hs & _ & _) Hlt Hg. unfold in_gap in Hg.
  apply andb_prop in Hg as [Hg H4]. apply andb_prop in Hg as [Hg H3].
  apply andb_prop in Hg as [H1 H2].
  apply Z.ltb_lt in H2, H4. apply Z.gtb_lt in H1, H3.
  rewrite wrap_sub in H1, H2, H3, H4 by assumption.
  unfold in_range in *.
  destruct (Z.leb_spec (end_ rp) key), (Z.leb_spec key (start rv)); lia.
Qed.

(** The gap test fails for a key at or below the end of the earlier range
    and less than [halfRange] away from it. *)
Lemma in_gap_false_le r key rp rv :
  2 * halfRange r <= modulus RT ->
  in_range RT key -> in_range RT (end_ rp) ->
  key <= end_ rp -> end_ rp - key < halfRange r ->
  in_gap r key rp rv = false.
Proof.
  intros Hh Hk He Hle Hw. unfold in_gap.
  rewrite wrap_sub by assumption.
  destruct (Z.leb_spec (end_ rp) key).
  - replace (key - end_ rp) with 0 by lia. reflexivity.
  - destruct (Z.ltb_spec (key - end_ rp + modulus RT) (halfRange r)); [lia|].
    now rewrite andb_false_r.
Qed.

(** Along ranges in the plain order the starts do not decrease. *)
Lemma chain_before_start_le (s : list rangeVal) :
  chain before s ->
  forall (j i : nat) a b,
    (i <= j)%nat -> s !! i = Some a -> s !! j = Some b -> start a <= start b.
Proof.
  intros Hc. rewrite chain_lookup in Hc.
  induction j as [|j IH]; intros i a b Hij Ha Hb.
  - assert (i = 0%nat) by lia. subst. simplify_eq. lia.
  - destruct (decide (i = S j)) as [->|Hne]; [simplify_eq; lia|].
    destruct (lookup_lt_is_Some_2 s j) as [c Hcj];
      [apply lookup_lt_Some in Hb; lia|].
    pose proof (IH i a c ltac:(lia) Ha Hcj).
    destruct (Hc j c b Hcj Hb). lia.
Qed.

(** What a run of accepted, non-wrapping calls on a fresh map leaves. *)
Lemma run_ok_reached ops sz r :
  Forall (wf_op RT VT) ops -> Forall no_wrap ops ->
  run_ok (NewRangeMap RT VT sz) ops = Some r ->
  alive r /\ raw_ordered r /\ modulus RT = 2 * halfRange r.
Proof.
  intros Hwf Hnw Hrun.
  destruct (run_ok_fields ops _ r (NewRangeMap_alive RT VT sz)
              (raw_fields _ (NewRangeMap_raw_ordered RT VT sz)) Hwf Hrun)
    as (Ha & _ & _ & Hh).
  split; [exact Ha|]. split.
  - exact (run_ok_raw_ordered ops _ r (NewRangeMap_alive RT VT sz)
             (NewRangeMap_raw_ordered RT VT sz) Hwf Hnw Hrun).
  - rewrite Hh. apply modulus_half.
Qed.

End Outcomes.

(** ** Answers of [GetValue] are never wrong *)

(** X1. On a map with at least one range, [GetValue] fails with
    [errKeyTooOld] exactly when the key is below the start of the open
    range and below the start of the oldest retained range, as plain
    unsigned integers; the loop never returns that error. *)
Theorem GetValue_too_old_iff RT VT (r : RangeMap RT VT) lr oldest (key : Z) :
  last (ranges r) = Some lr -> ranges r !! 0%nat = Some oldest ->
  (exists v, GetValue r key = Some (v, Some errKeyTooOld))
  <-> key < start lr /\ key < start oldest.
Proof.
  intros Hlast H0. apply last_Some in Hlast as [pre E].
  rewrite (GetValue_snoc r pre lr key E), <- E, H0.
  cbn [mbind option_bind].
  destruct (Z.geb_spec key (start lr)).
  { split; [intros [v [=]] | lia]. }
  destruct (Z.ltb_spec key (start oldest)).
  { split; [lia | eauto]. }
  split; [|lia]. intros [v Hv].
  destruct (scan_error r key _ v _ (Nat.le_refl _) Hv) as (_ & [?|[? _]]);
    discriminate.
Qed.

Lemma GetValue_too_old_iff_witness :
  GetValue (mkRangeMap (RT := U32) (VT := U32) 2147483648 1
              [ {| start := 4; end_ := 9; value := 2 |};
                {| start := 11; end_ := 0; value := 3 |} ]) 3
  = Some (0, Some errKeyTooOld).
Proof.
  destruct (proj2 (GetValue_too_old_iff U32 U32
                     (mkRangeMap 2147483648 1
                        [ {| start := 4; end_ := 9; value := 2 |};
                          {| start := 11; end_ := 0; value := 3 |} ])
                     {| start := 11; end_ := 0; value := 3 |}
                     {| start := 4; end_ := 9; value := 2 |} 3
                     eq_refl eq_refl)
              ltac:(simpl; lia)) as [v Hv].
  rewrite Hv. vm_compute in Hv. injection Hv as <-. reflexivity.
Defined.

(** X2. After accepted calls none of which runs over the end of the key
    space, a value returned by [GetValue] is the right one: either the key
    is at or above the start of the open range and the value is the open
    range's, or the key lies in a closed range, between its start and its
    end as plain integers, and the value is that range's. *)
Theorem GetValue_value_sound RT VT (sz : Z) (ops : list op)
    (r : RangeMap RT VT) (key v : Z) :
  Forall (wf_op RT VT) ops -> Forall no_wrap ops ->
  run_ok (NewRangeMap RT VT sz) ops = Some r ->
  in_range RT key ->
  GetValue r key = Some (v, None) ->
  (exists lr, last (ranges r) = Some lr /\ start lr <= key /\ v = value lr)
  \/ (exists (i : nat) rv,
        ranges r !! i = Some rv /\ (S i < length (ranges r))%nat
        /\ start rv <= key <= end_ rv /\ v = value rv).
Proof.
  intros Hwf Hnw Hrun Hk Hv.
  destruct (run_ok_reached ops sz r Hwf Hnw Hrun) as (Hb & [Hf Hc] & Hh).
  destruct (index_last_is_Some _ (alive_nonempty _ Hb)) as (lr & _ & Hlast).
  destruct (Z.le_gt_cases (start lr) key) as [Hge|Hlt].
  - left. exists lr. rewrite (GetValue_open r lr key Hlast Hge) in Hv.
    injection Hv as <-. auto.
  - right.
    destruct (GetValue_below_open r lr key v Hlast ltac:(lia) Hv)
      as (i & rv & Hi & Hlen & -> & Hin).
    exists i, rv. repeat split; try assumption;
      destruct (lookup_lt_is_Some_2 (ranges r) (S i) Hlen) as [rn Hrn];
      destruct (proj1 (chain_lookup before _) Hc i rv rn Hi Hrn) as [Hle _];
      apply (in_closed_sound r key rv); try assumption; try lia;
      exact (proj1 (Forall_lookup _ _) Hf i rv Hi).
Qed.

Lemma GetValue_value_sound_witness :
  (exists lr,
     last [ {| start := 10; end_ := 19; value := 10 |};
            {| start := 25; end_ := 0; value := 15 |} ] = Some lr
     /\ start lr <= 12 /\ 10 = value lr)
  \/ (exists (i : nat) rv,
        [ {| start := 10; end_ := 19; value := 10 |};
          {| start := 25; end_ := 0; value := 15 |} ] !! i = Some rv
        /\ (S i < 2)%nat /\ start rv <= 12 <= end_ rv /\ 10 = value rv).
Proof.
  apply (GetValue_value_sound U32 U32 2 [OpExclude 0 10; OpExclude 20 25]
           (mkRangeMap 2147483648 2
              [ {| start := 10; end_ := 19; value := 10 |};
                {| start := 25; end_ := 0; value := 15 |} ]) 12 10).
  - repeat constructor; vm_compute; congruence.
  - repeat constructor.
  - vm_compute. reflexivity.
  - vm_compute. split; congruence.
  - vm_compute. reflexivity.
Defined.

(** X3. After accepted calls none of which runs over the end of the key
    space, [GetValue] fails with [errKeyExcluded] only for a key that lies
    strictly between the end of a retained range and the start of the next
    one, as plain integers; the value returned with the error is 0. *)
Theorem GetValue_excluded_sound RT VT (sz : Z) (ops : list op)
    (r : RangeMap RT VT) (key v : Z) :
  Forall (wf_op RT VT) ops -> Forall no_wrap ops ->
  run_ok (NewRangeMap RT VT sz) ops = Some r ->
  in_range RT key ->
  GetValue r key = Some (v, Some errKeyExcluded) ->
  v = 0
  /\ exists (i : nat) rp rv,
       ranges r !! i = Some rp /\ ranges r !! S i = Some rv
       /\ end_ rp < key < start rv.
Proof.
  intros Hwf Hnw Hrun Hk Hv.
  destruct (run_ok_reached ops sz r Hwf Hnw Hrun) as (Hb & [Hf Hc] & Hh).
  destruct (snoc_inv _ (alive_nonempty _ Hb)) as (pre & lr & E).
  rewrite (GetValue_snoc r pre lr key E) in Hv.
  destruct (key >=? start lr); [discriminate|].
  destruct ((pre ++ [lr]) !! 0%nat) as [oldest|]; simpl in Hv;
    [|discriminate].
  destruct (key <? start oldest); [discriminate|].
  destruct (scan_error r key _ v _ (Nat.le_refl _) Hv)
    as (-> & [?|(_ & m & rp & rv & Hrp & Hrv & Hg)]); [discriminate|].
  split; [reflexivity|]. exists m, rp, rv.
  split; [exact Hrp|]. split; [exact Hrv|].
  destruct (proj1 (chain_lookup before _) Hc m rp rv Hrp Hrv) as [_ Hlt].
  apply (in_gap_sound r key rp rv); try assumption; try lia.
  - exact (proj1 (Forall_lookup _ _) Hf m rp Hrp).
  - exact (proj1 (Forall_lookup _ _) Hf (S m) rv Hrv).
Qed.

Lemma GetValue_excluded_sound_witness :
  0 = 0
  /\ exists (i : nat) rp rv,
       [ {| start := 10; end_ := 19; value := 10 |};
         {| start := 25; end_ := 0; value := 15 |} ] !! i = Some rp
       /\ [ {| start := 10; end_ := 19; value := 10 |};
            {| start := 25; end_ := 0; value := 15 |} ] !! S i = Some rv
       /\ end_ rp < 22 < start rv.
Proof.
  apply (GetValue_excluded_sound U32 U32 2 [OpExclude 0 10; OpExclude 20 25]
           (mkRangeMap 2147483648 2
              [ {| start := 10; end_ := 19; value := 10 |};
                {| start := 25; end_ := 0; value := 15 |} ]) 22 0).
  - repeat constructor; vm_compute; congruence.
  - repeat constructor.
  - vm_compute. reflexivity.
  - vm_compute. split; congruence.
  - vm_compute. reflexivity.
Defined.

(** ** The open range and the history *)

Section OpenRange.
Context {RT VT : uintType}.
Implicit Type r : RangeMap RT VT.

(** The loop of [GetValue] reads the start of the last range and nothing
    else of it. *)
Lemma scan_last_start r pre lr lr' key numRanges (n : nat) :
  ranges r = pre ++ [lr] -> start lr' = start lr ->
  numRanges - 1 = Z.of_nat (length pre) ->
  (n <= S (length pre))%nat ->
  scan (set_ranges r (pre ++ [lr'])) key numRanges n
  = scan r key numRanges n.
Proof.
  intros E Hs Hl1. induction n as [|n IH]; intros Hn; [reflexivity|].
  destruct (decide (n = length pre)) as [->|Hne].
  - rewrite (scan_S _ key _ _ lr')
      by (cbn [ranges set_ranges]; now apply list_lookup_middle).
    rewrite (scan_S r key _ _ lr) by (rewrite E; now apply list_lookup_middle).
    rewrite Hl1, Z.eqb_refl. cbn [negb andb].
    destruct (length pre) as [|m] eqn:Hm; [apply IH; lia|].
    cbn [ranges set_ranges]. rewrite E.
    rewrite !lookup_app_l by lia.
    destruct (pre !! m) as [rp|]; [|reflexivity]. cbn [mbind option_bind].
    unfold in_gap. cbn [halfRange set_ranges]. rewrite Hs.
    destruct (_ && _ && _ && _); [reflexivity | apply IH; lia].
  - assert (Hlt : (n < length pre)%nat) by lia.
    destruct (lookup_lt_is_Some_2 pre n Hlt) as [rv Hrv].
    rewrite (scan_S _ key _ _ rv)
      by (cbn [ranges set_ranges]; now rewrite lookup_app_l).
    rewrite (scan_S r key _ _ rv) by (rewrite E; now rewrite lookup_app_l).
    unfold in_closed. cbn [halfRange set_ranges].
    destruct (negb _ && _); [reflexivity|].
    destruct n as [|m]; [apply IH; lia|].
    cbn [ranges set_ranges]. rewrite E. rewrite !lookup_app_l by lia.
    destruct (pre !! m) as [rp|]; [|reflexivity]. cbn [mbind option_bind].
    unfold in_gap. cbn [halfRange set_ranges].
    destruct (_ && _ && _ && _); [reflexivity | apply IH; lia].
Qed.

Lemma GetValue_last_start r pre lr lr' key :
  ranges r = pre ++ [lr] -> start lr' = start lr -> key < start lr ->
  GetValue (set_ranges r (pre ++ [lr'])) key = GetValue r key.
Proof.
  intros E Hs Hk.
  rewrite (GetValue_snoc (set_ranges r (pre ++ [lr'])) pre lr' key eq_refl).
  rewrite (GetValue_snoc r pre lr key E), Hs.
  destruct (Z.geb_spec key (start lr)); [lia|].
  cbn [ranges set_ranges].
  assert (Hlen : len (pre ++ [lr']) = len (ranges r))
    by (rewrite E, !len_app; reflexivity).
  assert (Hlength : length (pre ++ [lr']) = length (ranges r))
    by (rewrite E, !length_app; reflexivity).
  rewrite Hlen, Hlength.
  rewrite (scan_last_start r pre lr lr' key _ _ E Hs)
    by (rewrite E, ?len_app, ?length_app; unfold len; simpl; lia).
  destruct pre as [|p pre]; cbn [app lookup list_lookup mbind option_bind];
    [rewrite Hs|]; reflexivity.
Qed.

End OpenRange.

(** X4. [DecValue] changes the answers for the keys of the open range and
    for no other key: afterwards [GetValue] returns the open range's value
    less [dec], modulo [2^W] of the value type, for every key at or above
    the start of the open range, and what it returned before for every key
    below it. *)
Theorem DecValue_keeps_history RT VT (r : RangeMap RT VT) lr (dec : Z) :
  last (ranges r) = Some lr ->
  exists r',
    DecValue r dec = Some r'
    /\ (forall key, start lr <= key ->
        GetValue r' key = Some (wrap VT (value lr - dec), None))
    /\ (forall key, key < start lr -> GetValue r' key = GetValue r key).
Proof.
  intros Hlast. apply last_Some in Hlast as [pre E].
  rewrite (DecValue_snoc r pre lr dec E). eexists. split; [reflexivity|].
  split.
  - intros key Hk.
    apply (GetValue_open _ {| start := start lr; end_ := end_ lr;
                              value := wrap VT (value lr - dec) |});
      [apply last_snoc | exact Hk].
  - intros key Hk. now apply (GetValue_last_start r pre lr).
Qed.

Lemma DecValue_keeps_history_witness :
  exists r',
    DecValue (mkRangeMap (RT := U32) (VT := U32) 2147483648 2
                [ {| start := 10; end_ := 19; value := 10 |};
                  {| start := 25; end_ := 0; value := 15 |} ]) 20 = Some r'
    /\ (forall key, 25 <= key ->
        GetValue r' key = Some (wrap U32 (15 - 20), None))
    /\ (forall key, key < 25 ->
        GetValue r' key
        = GetValue (mkRangeMap (RT := U32) (VT := U32) 2147483648 2
                      [ {| start := 10; end_ := 19; value := 10 |};
                        {| start := 25; end_ := 0; value := 15 |} ]) key).
Proof.
  exact (DecValue_keeps_history U32 U32
           (mkRangeMap 2147483648 2
              [ {| start := 10; end_ := 19; value := 10 |};
                {| start := 25; end_ := 0; value := 15 |} ])
           {| start := 25; end_ := 0; value := 15 |} 20 eq_refl).
Defined.

(** ** Exclusions and later calls *)







(** ** Closed ranges *)

Section Closed.
Context {RT VT : uintType}.
Implicit Type r : RangeMap RT VT.

Lemma closed_ranges_snoc r pre lr :
  ranges r = pre ++ [lr] -> closed_ranges r = pre.
Proof.
  intros E. unfold closed_ranges. rewrite E, length_app. simpl.
  replace (length pre + 1 - 1)%nat with (length pre) by lia.
  apply take_app_length.
Qed.

End Closed.

(** X8. Whatever calls are made on a fresh map, accepted or rejected,
    wrapping or not, every range but the open one has [start <= end] as
    plain unsigned integers: no closed range is empty or reversed. *)
Theorem closed_ranges_hold_a_key RT VT (sz : Z) (ops : list op)
    (r : RangeMap RT VT) :
  Forall (wf_op RT VT) ops ->
  run (NewRangeMap RT VT sz) ops = Some r ->
  forall a, a ∈ closed_ranges r -> start a <= end_ a.
Proof.
  intros Hwf Hrun a Ha.
  pose proof (NewRangeMap_holds_a_key RT VT sz ops r Hwf Hrun) as Hc.
  unfold closed_ranges in Ha.
  apply list_elem_of_lookup in Ha as [i Hi].
  pose proof (lookup_lt_Some _ _ _ Hi) as Hlt. rewrite length_take in Hlt.
  rewrite lookup_take_lt in Hi by lia.
  destruct (lookup_lt_is_Some_2 (ranges r) (S i)) as [b Hb]; [lia|].
  exact (proj1 (chain_lookup holds_a_key _) Hc i a b Hi Hb).
Qed.

Lemma closed_ranges_hold_a_key_witness :
  start {| start := 5; end_ := 4294967293; value := 5 |}
  <= end_ {| start := 5; end_ := 4294967293; value := 5 |}.
Proof.
  apply (closed_ranges_hold_a_key U32 U32 4
           [OpExclude 0 5; OpExclude 4294967294 3; OpExclude 1 2]
           (mkRangeMap 2147483648 4
              [ {| start := 5; end_ := 4294967293; value := 5 |};
                {| start := 3; end_ := 0; value := 10 |} ])).
  - repeat constructor; vm_compute; congruence.
  - vm_compute. reflexivity.
  - vm_compute. apply list_elem_of_here.
Defined.

(** X9. The history is append-only.  [DecValue] leaves the closed ranges
    as they are.  An accepted [ExcludeRange(s, e)] leaves them as they are
    when [s] is the start of the open range (merge); otherwise (split) the
    closed ranges afterwards are the newest [size] ones of the former
    closed ranges followed by the former open range closed at [s - 1]:
    closed ranges are dropped from the front, never modified. *)
Theorem history_append_only RT VT (r : RangeMap RT VT) lr :
  1 <= size r -> last (ranges r) = Some lr ->
  (forall dec r', DecValue r dec = Some r' ->
     closed_ranges r' = closed_ranges r)
  /\ (forall s e r', ExcludeRange r s e = Some (r', None) ->
        (start lr = s /\ closed_ranges r' = closed_ranges r)
        \/ (start lr < s
            /\ closed_ranges r' `suffix_of`
                 closed_ranges r ++ [closed_at (RT := RT) lr s]
            /\ length (closed_ranges r')
               = Nat.min (length (closed_ranges r) + 1)
                   (Z.to_nat (size r)))).
Proof.
  intros Hs Hlast. apply last_Some in Hlast as [pre E].
  rewrite (closed_ranges_snoc r pre lr E). split.
  - intros dec r'. rewrite (DecValue_snoc r pre lr dec E). intros [= <-].
    eapply closed_ranges_snoc. reflexivity.
  - intros s e r' Hex.
    destruct (ExcludeRange_accepted r pre lr s e r' E ltac:(lia) Hex)
      as (_ & _ & Hle & ->).
    unfold after_exclude. destruct (Z.eqb_spec (start lr) s) as [Heq|Hne].
    + left. split; [exact Heq|]. eapply closed_ranges_snoc. reflexivity.
    + right. split; [lia|].
      set (k := Z.to_nat (len pre + 1 - size r)).
      assert (Hk : (k <= length pre)%nat) by (unfold k, len; lia).
      assert (Hcl : closed_ranges
                      (set_ranges r
                         (drop k ((pre ++ [closed_at (RT := RT) lr s])
                                    ++ [opened (RT := RT) (VT := VT)
                                          lr s e 0])))
                    = drop k (pre ++ [closed_at (RT := RT) lr s])).
      { apply (closed_ranges_snoc _ _ (opened (RT := RT) (VT := VT) lr s e 0)).
        cbn [ranges set_ranges]. apply drop_app_le.
        rewrite length_app. simpl. lia. }
      rewrite Hcl. split.
      * exists (take k (pre ++ [closed_at (RT := RT) lr s])).
        symmetry. apply take_drop.
      * rewrite length_drop, length_app. simpl. unfold k, len. lia.
Qed.

Lemma history_append_only_witness :
  closed_ranges (mkRangeMap (RT := U32) (VT := U32) 2147483648 1
                   [ {| start := 10; end_ := 19; value := 10 |};
                     {| start := 25; end_ := 0; value := 15 |} ])
  `suffix_of`
    closed_ranges (mkRangeMap (RT := U32) (VT := U32) 2147483648 1
                     [ {| start := 0; end_ := 4; value := 5 |};
                       {| start := 10; end_ := 0; value := 10 |} ])
    ++ [closed_at (RT := U32) {| start := 10; end_ := 0; value := 10 |} 20].
Proof.
  destruct (proj2 (history_append_only U32 U32
                     (mkRangeMap 2147483648 1
                        [ {| start := 0; end_ := 4; value := 5 |};
                          {| start := 10; end_ := 0; value := 10 |} ])
                     {| start := 10; end_ := 0; value := 10 |}
                     ltac:(simpl; lia) eq_refl)
              20 25
              (mkRangeMap 2147483648 1
                 [ {| start := 10; end_ := 19; value := 10 |};
                   {| start := 25; end_ := 0; value := 15 |} ])
              ltac:(vm_compute; reflexivity))
    as [[Heq _]|(_ & Hsuf & _)].
  - simpl in Heq. discriminate.
  - exact Hsuf.
Defined.

(** ** Lookups next to a fresh split *)

Section Split.
Context {RT VT : uintType}.
Implicit Type r : RangeMap RT VT.

(** Lookup of a key from the start of the newest closed range [c] up to
    the start of the open range [o]. *)
Lemma GetValue_newest_closed r pre c o key :
  ranges r = (pre ++ [c]) ++ [o] -> chain before (ranges r) ->
  start c <= key < start o ->
  (in_gap r key c o = true -> GetValue r key = Some (0, Some errKeyExcluded))
  /\ (in_gap r key c o = false -> in_closed r key c = true ->
      GetValue r key = Some (value c, None)).
Proof.
  intros E Hc [Hk1 Hk2].
  assert (Hlc : ranges r !! length pre = Some c)
    by (rewrite E, lookup_app_l by (rewrite length_app; simpl; lia);
        now apply list_lookup_middle).
  assert (Hlo : ranges r !! S (length pre) = Some o).
  { rewrite E. apply list_lookup_middle. rewrite length_app. simpl. lia. }
  assert (Hlen : length (ranges r) = S (S (length pre)))
    by (rewrite E, !length_app; simpl; lia).
  destruct (lookup_lt_is_Some_2 (ranges r) 0) as [oldest H0]; [lia|].
  pose proof (chain_before_start_le _ Hc (length pre) 0 oldest c
                ltac:(lia) H0 Hlc) as Hold.
  rewrite (GetValue_snoc r (pre ++ [c]) o key E), <- E, H0.
  cbn [mbind option_bind].
  destruct (Z.geb_spec key (start o)); [lia|].
  destruct (Z.ltb_spec key (start oldest)); [lia|].
  rewrite Hlen, (scan_S r key _ _ o Hlo).
  replace (Z.of_nat (S (length pre)) =? len (ranges r) - 1) with true
    by (symmetry; apply Z.eqb_eq; unfold len; lia).
  cbn [negb andb]. rewrite Hlc. cbn [mbind option_bind].
  split; [intros ->; reflexivity|]. intros -> Hin.
  rewrite (scan_S r key _ _ c Hlc).
  replace (Z.of_nat (length pre) =? len (ranges r) - 1) with false
    by (symmetry; apply Z.eqb_neq; unfold len; lia).
  cbn [negb andb]. now rewrite Hin.
Qed.

(** The ranges after an accepted split of a map reached by accepted,
    non-wrapping calls. *)
Lemma split_reached ops sz r lr s e r' :
  Forall (wf_op RT VT) ops -> Forall no_wrap ops ->
  run_ok (NewRangeMap RT VT sz) ops = Some r ->
  last (ranges r) = Some lr ->
  in_range RT s -> in_range RT e -> start lr < s -> s < e ->
  ExcludeRange r s e = Some (r', None) ->
  exists pre c o,
    ranges r' = (pre ++ [c]) ++ [o]
    /\ raw_ordered r' /\ halfRange r' = halfRange r
    /\ modulus RT = 2 * halfRange r
    /\ start c = start lr /\ end_ c = s - 1 /\ value c = value lr
    /\ start o = e.
Proof.
  intros Hwf Hnw Hrun Hlast Hs He Hlt Hse Hex.
  destruct (run_ok_reached ops sz r Hwf Hnw Hrun) as (Hb & Hr & Hh).
  assert (Hr' : raw_ordered r')
    by (apply (apply_op_raw_ordered r (OpExclude s e) r'
                 (alive_nonempty _ Hb) Hr);
        [split; assumption | exact Hse | exact Hex]).
  apply last_Some in Hlast as [pre E].
  pose proof (split_capacity r pre lr s e r' Hb E ltac:(lia) Hex) as Hsz.
  destruct (ExcludeRange_accepted r pre lr s e r' E ltac:(lia) Hex)
    as (_ & _ & _ & Hr'eq).
  unfold after_exclude in Hr'eq.
  destruct (Z.eqb_spec (start lr) s); [lia|].
  set (k := Z.to_nat (len pre + 1 - size r)) in *.
  assert (Hk : (k <= length pre)%nat) by (unfold k, len; lia).
  exists (drop k pre), (closed_at (RT := RT) lr s),
    (opened (RT := RT) (VT := VT) lr s e 0).
  split.
  { rewrite Hr'eq. cbn [ranges set_ranges].
    rewrite drop_app_le by (rewrite length_app; simpl; lia).
    now rewrite drop_app_le by exact Hk. }
  split; [exact Hr'|]. split; [rewrite Hr'eq; reflexivity|].
  split; [exact Hh|]. simpl.
  rewrite wrap_small by (destruct Hr as [Hf _]; rewrite E in Hf;
                         apply Forall_snoc_inv in Hf as [_ (Hst & _)];
                         unfold in_range in *; lia).
  auto.
Qed.

End Split.

(** X10. After an accepted split by [ExcludeRange(s, e)] of a map reached
    by accepted, non-wrapping calls, with [s < e] and a width below
    [halfRange], [GetValue] fails with [errKeyExcluded] for every key of
    the excluded range [s .. e - 1]. *)
Theorem excluded_keys_report_excluded RT VT (sz : Z) (ops : list op)
    (r r' : RangeMap RT VT) lr (s e : Z) :
  Forall (wf_op RT VT) ops -> Forall no_wrap ops ->
  run_ok (NewRangeMap RT VT sz) ops = Some r ->
  last (ranges r) = Some lr ->
  in_range RT s -> in_range RT e -> start lr < s -> s < e ->
  e - s < halfRange r ->
  ExcludeRange r s e = Some (r', None) ->
  forall key, s <= key < e ->
    GetValue r' key = Some (0, Some errKeyExcluded).
Proof.
  intros Hwf Hnw Hrun Hlast Hs He Hlt Hse Hw Hex key Hk.
  destruct (split_reached ops sz r lr s e r' Hwf Hnw Hrun Hlast Hs He
              Hlt Hse Hex)
    as (pre & c & o & E & [Hf Hc] & Hh & Hm & Hcs & Hce & _ & Hos).
  rewrite E in Hf. apply Forall_snoc_inv in Hf as [Hf Hfo].
  apply Forall_snoc_inv in Hf as [_ Hfc].
  apply (GetValue_newest_closed r' pre c o key E Hc); [lia|].
  apply in_gap_true; [| exact Hfc | exact Hfo | lia | lia].
  unfold in_range in *. lia.
Qed.

Lemma excluded_keys_report_excluded_witness :
  GetValue (mkRangeMap (RT := U32) (VT := U32) 2147483648 2
              [ {| start := 10; end_ := 19; value := 10 |};
                {| start := 25; end_ := 0; value := 15 |} ]) 24
  = Some (0, Some errKeyExcluded).
Proof.
  apply (excluded_keys_report_excluded U32 U32 2 [OpExclude 0 10]
           (mkRangeMap 2147483648 2
              [ {| start := 10; end_ := 0; value := 10 |} ])
           _ {| start := 10; end_ := 0; value := 10 |} 20 25).
  - repeat constructor; vm_compute; congruence.
  - repeat constructor.
  - vm_compute. reflexivity.
  - reflexivity.
  - vm_compute. split; congruence.
  - vm_compute. split; congruence.
  - simpl. lia.
  - lia.
  - simpl. lia.
  - vm_compute. reflexivity.
  - lia.
Defined.

(** X11. An accepted split by [ExcludeRange(s, e)] keeps the answers for
    the keys of the range it closes: on a map reached by accepted,
    non-wrapping calls, with [s < e] and at most [halfRange] keys between
    the start of the open range and [s], [GetValue] afterwards still
    returns the former value of the open range for every key from that
    start up to [s - 1]. *)
Theorem split_keeps_closed_keys RT VT (sz : Z) (ops : list op)
    (r r' : RangeMap RT VT) lr (s e : Z) :
  Forall (wf_op RT VT) ops -> Forall no_wrap ops ->
  run_ok (NewRangeMap RT VT sz) ops = Some r ->
  last (ranges r) = Some lr ->
  in_range RT s -> in_range RT e -> start lr < s -> s < e ->
  s - start lr <= halfRange r ->
  ExcludeRange r s e = Some (r', None) ->
  forall key, start lr <= key < s ->
    GetValue r' key = Some (value lr, None)
    /\ GetValue r key = Some (value lr, None).
Proof.
  intros Hwf Hnw Hrun Hlast Hs He Hlt Hse Hw Hex key Hk.
  split; [|apply GetValue_open; [exact Hlast | lia]].
  destruct (split_reached ops sz r lr s e r' Hwf Hnw Hrun Hlast Hs He
              Hlt Hse Hex)
    as (pre & c & o & E & [Hf Hc] & Hh & Hm & Hcs & Hce & Hcv & Hos).
  rewrite E in Hf. apply Forall_snoc_inv in Hf as [Hf Hfo].
  apply Forall_snoc_inv in Hf as [_ Hfc].
  assert (Hkr : in_range RT key)
    by (destruct Hfc as [Hst _]; unfold in_range in *; lia).
  rewrite <- Hcv.
  apply (GetValue_newest_closed r' pre c o key E Hc); [lia | |].
  - apply in_gap_false_le; [lia | exact Hkr | apply Hfc | lia | lia].
  - apply in_closed_true; [exact Hkr | exact Hfc | lia | lia].
Qed.

Lemma split_keeps_closed_keys_witness :
  GetValue (mkRangeMap (RT := U32) (VT := U32) 2147483648 2
              [ {| start := 10; end_ := 19; value := 10 |};
                {| start := 25; end_ := 0; value := 15 |} ]) 13
  = Some (10, None)
  /\ GetValue (mkRangeMap (RT := U32) (VT := U32) 2147483648 2
                 [ {| start := 10; end_ := 0; value := 10 |} ]) 13
     = Some (10, None).
Proof.
  apply (split_keeps_closed_keys U32 U32 2 [OpExclude 0 10]
           (mkRangeMap 2147483648 2
              [ {| start := 10; end_ := 0; value := 10 |} ])
           _ {| start := 10; end_ := 0; value := 10 |} 20 25).
  - repeat constructor; vm_compute; congruence.
  - repeat constructor.
  - vm_compute. reflexivity.
  - reflexivity.
  - vm_compute. split; congruence.
  - vm_compute. split; congruence.
  - simpl. lia.
  - lia.
  - simpl. lia.
  - vm_compute. reflexivity.
  - simpl. lia.
Defined.

(** ** Adjacent exclusions *)




(** ** Lookups against the list of exclusions *)

Lemma is_excluded_snoc excl s e key :
  is_excluded (excl ++ [(s, e)]) key
  = is_excluded excl key || ((s <=? key) && (key <? e)).
Proof.
  unfold is_excluded. rewrite existsb_app. simpl. now rewrite orb_false_r.
Qed.

Lemma width_below_snoc excl s e key :
  width_below (excl ++ [(s, e)]) key
  = width_below excl key + (if e <=? key then e - s else 0).
Proof.
  unfold width_below. induction excl as [|se excl IH]; simpl; [lia|].
  rewrite IH. lia.
Qed.

Lemma chain_impl_lookup {A} (R R' : A -> A -> Prop) (s : list A) :
  chain R s ->
  (forall (i : nat) a b,
     s !! i = Some a -> s !! S i = Some b -> R a b -> R' a b) ->
  chain R' s.
Proof.
  rewrite !chain_lookup. intros H Himp i a b Ha Hb. eauto.
Qed.

Section Reference.
Context {RT VT : uintType}.
Implicit Type r : RangeMap RT VT.

Lemma run_ok_app ops1 : forall r ops2,
  run_ok r (ops1 ++ ops2) = r1 ← run_ok r ops1; run_ok r1 ops2.
Proof.
  induction ops1 as [|o ops1 IH]; intros r ops2; simpl; [reflexivity|].
  destruct (apply_op r o) as [[r1 [err|]]|]; simpl; auto.
Qed.

Lemma run_ok_size ops sz r :
  run_ok (NewRangeMap RT VT sz) ops = Some r ->
  size r = size (NewRangeMap RT VT sz).
Proof.
  intros Hrun.
  now destruct (run_alive ops _ r (NewRangeMap_alive RT VT sz)
                  (run_ok_run ops _ r Hrun)) as (_ & Hs & _).
Qed.

(** The outcomes of [GetValue] on a map with at least one range. *)
Lemma GetValue_outcome r lr oldest key v err :
  last (ranges r) = Some lr -> ranges r !! 0%nat = Some oldest ->
  GetValue r key = Some (v, err) ->
  (err = None /\ start lr <= key /\ v = value lr)
  \/ (err = None /\ key < start lr
      /\ exists (i : nat) rv,
           ranges r !! i = Some rv /\ (S i < length (ranges r))%nat
           /\ v = value rv /\ in_closed r key rv = true)
  \/ (err = Some errKeyTooOld /\ v = 0 /\ key < start oldest)
  \/ (err = Some errKeyExcluded /\ v = 0
      /\ exists (m : nat) rp rv,
           ranges r !! m = Some rp /\ ranges r !! S m = Some rv
           /\ in_gap r key rp rv = true)
  \/ (err = Some errKeyNotFound /\ v = 0).
Proof.
  intros Hlast H0 Hv.
  destruct (Z.le_gt_cases (start lr) key) as [Hge|Hlt].
  { rewrite (GetValue_open r lr key Hlast Hge) in Hv.
    injection Hv as <- <-. auto. }
  destruct err as [err|].
  - right. right. pose proof Hlast as Hl. apply last_Some in Hl as [pre E].
    rewrite (GetValue_snoc r pre lr key E), <- E, H0 in Hv.
    cbn [mbind option_bind] in Hv.
    destruct (key >=? start lr); [discriminate|].
    destruct (Z.ltb_spec key (start oldest)).
    { injection Hv as <- <-. auto. }
    destruct (scan_error r key _ v err (Nat.le_refl _) Hv)
      as (-> & [->|[-> Hgap]]); auto.
  - right. left. split; [reflexivity|]. split; [exact Hlt|].
    exact (GetValue_below_open r lr key v Hlast Hlt Hv).
Qed.

End Reference.

Section Tracking.
Context {RT VT : uintType}.
Implicit Type r : RangeMap RT VT.

Lemma lower_half_ops excl :
  Forall (in_lower_half RT) excl ->
  Forall (wf_op RT VT) (exclusions excl) /\ Forall no_wrap (exclusions excl).
Proof.
  pose proof (modulus_half RT) as Hm.
  induction 1 as [|[s e] excl (H0 & Hse & Hh) _ [IH1 IH2]]; simpl.
  - split; constructor.
  - simpl in *. split; constructor; try assumption; simpl;
      unfold in_range; lia.
Qed.

Lemma NewRangeMap_tracks sz : tracks [] (NewRangeMap RT VT sz).
Proof.
  split; simpl.
  - unfold len. simpl. lia.
  - eexists. split; reflexivity.
  - constructor; [|constructor]. simpl. destruct RT; vm_compute; congruence.
  - tauto.
  - intros lr key [= <-] _. split; [reflexivity|]. simpl.
    symmetry. apply Z.mod_0_l. pose proof (modulus_pos VT). lia.
Qed.

(** The open range after an accepted exclusion agrees with the exclusions
    when the one before did. *)
Lemma opened_agrees excl lr s e end' key :
  in_range RT s -> in_range RT e -> start lr <= s -> s < e -> e <= key ->
  (is_excluded excl key = false
   /\ value lr = wrap VT (width_below excl key)) ->
  is_excluded (excl ++ [(s, e)]) key = false
  /\ value (opened (RT := RT) (VT := VT) lr s e end')
     = wrap VT (width_below (excl ++ [(s, e)]) key).
Proof.
  intros Hs He Hle Hse Hk [Hex Hv].
  rewrite is_excluded_snoc, width_below_snoc, Hex.
  destruct (Z.ltb_spec key e); [lia|].
  destruct (Z.leb_spec e key); [|lia].
  split; [now rewrite andb_false_r|].
  unfold opened. cbn [value].
  rewrite (wrap_small RT) by (unfold in_range in *; lia).
  now rewrite wrap_add_wrap, Hv, wrap_wrap_add.
Qed.

Lemma ExcludeRange_tracks excl r s e r' :
  ranges r <> [] -> raw_ordered r -> tracks excl r ->
  in_lower_half RT (s, e) ->
  halfRange r = Z.shiftl 1 (sizeOf RT * 8 - 1) ->
  len excl + 1 <= size r ->
  ExcludeRange r s e = Some (r', None) ->
  tracks (excl ++ [(s, e)]) r'.
Proof.
  intros Hne [Hf Hc] [Tl (x & Hx & Hx0) Th Tc To] (H0 & Hse & Hhalf)
    Hh Hcap Hex.
  simpl in H0, Hse, Hhalf.
  pose proof (len_nonneg excl) as Hsz.
  pose proof (modulus_half RT) as Hm.
  assert (Hs : in_range RT s) by (unfold in_range; lia).
  assert (He : in_range RT e) by (unfold in_range; lia).
  destruct (snoc_inv _ Hne) as (pre & lr & E).
  assert (Hlast : last (ranges r) = Some lr) by (rewrite E; apply last_snoc).
  destruct (ExcludeRange_accepted r pre lr s e r' E ltac:(lia) Hex)
    as (_ & _ & Hle & ->).
  assert (Hlen : len (ranges r) = len pre + 1)
    by (rewrite E, len_app; reflexivity).
  assert (Hlr : ranges r !! length pre = Some lr)
    by (rewrite E; now apply list_lookup_middle).
  (* every pair of consecutive ranges lies below the exclusion *)
  assert (Hlift : chain (agrees VT (excl ++ [(s, e)])) (ranges r)).
  { apply (chain_impl_lookup (agrees VT excl)); [exact Tc|].
    intros i a b Ha Hb [Ha1 Ha2].
    destruct (proj1 (chain_lookup before _) Hc i a b Ha Hb) as [Hab1 Hab2].
    assert (Hbl : start b <= start lr).
    { apply (chain_before_start_le _ Hc (length pre) (S i) b lr);
        [|exact Hb|exact Hlr].
      apply lookup_lt_Some in Hb. rewrite E, length_app in Hb.
      simpl in Hb. lia. }
    split; intros key Hk; rewrite is_excluded_snoc, ?width_below_snoc.
    - destruct (Ha1 key Hk) as [-> ->].
      destruct (Z.leb_spec s key); [lia|].
      destruct (Z.leb_spec e key); [lia|].
      split; [reflexivity | now rewrite Z.add_0_r].
    - now rewrite (Ha2 key Hk). }
  assert (Hopen : forall end' lr' key,
             last [opened (RT := RT) (VT := VT) lr s e end'] = Some lr' ->
             start lr' <= key ->
             is_excluded (excl ++ [(s, e)]) key = false
             /\ value lr' = wrap VT (width_below (excl ++ [(s, e)]) key)).
  { intros end' lr' key [= <-] Hk. simpl in Hk.
    apply opened_agrees; try assumption.
    apply To; [exact Hlast | lia]. }
  assert (Hlr_half : start lr <= halfRange r)
    by (rewrite E in Th; apply Forall_snoc_inv in Th as [_ H]; exact H).
  assert (Hpre_half : Forall (fun a => start a <= halfRange r) pre)
    by (rewrite E in Th; apply Forall_snoc_inv in Th as [H _]; exact H).
  assert (Hlr_fields : fields_in_range RT VT lr)
    by (rewrite E in Hf; apply Forall_snoc_inv in Hf as [_ H]; exact H).
  assert (Hlen' : len (excl ++ [(s, e)]) = len excl + 1)
    by (rewrite len_app; reflexivity).
  rewrite E in Hlift.
  unfold after_exclude. destruct (Z.eqb_spec (start lr) s) as [Heq|Hneq].
  - (* merge *)
    assert (Hpre : pre <> []).
    { intros ->. rewrite E in Hx. simpl in Hx. injection Hx as <-. lia. }
    split; cbn [ranges set_ranges halfRange].
    + rewrite len_app. change (len [_]) with 1. lia.
    + exists x. split; [|exact Hx0].
      rewrite E in Hx. destruct pre; [congruence | exact Hx].
    + apply Forall_snoc; [exact Hpre_half | simpl; lia].
    + eapply chain_change_last; [exact Hlift|].
      intros p [Hp1 Hp2]. split; [exact Hp1|].
      intros key Hk. simpl in Hk.
      destruct (Z.lt_ge_cases key (start lr)); [apply Hp2; lia|].
      rewrite is_excluded_snoc.
      destruct (Z.leb_spec s key); [|lia].
      destruct (Z.ltb_spec key e); [|lia].
      apply orb_true_r.
    + intros lr' key. rewrite last_snoc. apply Hopen.
  - (* split, nothing pruned *)
    replace (Z.to_nat (len pre + 1 - size r)) with 0%nat by lia.
    rewrite drop_0.
    assert (Hw : wrap RT (s - 1) = s - 1)
      by (apply wrap_small; destruct Hlr_fields as [Hst _];
          unfold in_range in *; lia).
    split; cbn [ranges set_ranges halfRange].
    + rewrite !len_app. change (len [_]) with 1. lia.
    + exists (match pre with [] => closed_at (RT := RT) lr s | p :: _ => p end).
      rewrite E in Hx. destruct pre as [|p pre]; simpl in Hx |- *.
      * injection Hx as <-. auto.
      * injection Hx as <-. auto.
    + apply Forall_snoc; [apply Forall_snoc|];
        [exact Hpre_half | exact Hlr_half | simpl; lia].
    + apply chain_snoc.
      * eapply chain_change_last; [exact Hlift|].
        intros p Hp. exact Hp.
      * split; intros key Hk; simpl in Hk; rewrite Hw in Hk.
        -- destruct (To lr key Hlast ltac:(lia)) as [Hex' Hv'].
           rewrite is_excluded_snoc, width_below_snoc, Hex'.
           destruct (Z.leb_spec s key); [lia|].
           destruct (Z.leb_spec e key); [lia|].
           split; [reflexivity|]. simpl. now rewrite Z.add_0_r.
        -- rewrite is_excluded_snoc.
           destruct (Z.leb_spec s key); [|lia].
           destruct (Z.ltb_spec key e); [|lia].
           apply orb_true_r.
    + intros lr' key. rewrite last_snoc. apply Hopen.
Qed.

Lemma run_ok_tracks sz excl : forall r,
  Forall (in_lower_half RT) excl ->
  len excl <= size (NewRangeMap RT VT sz) ->
  run_ok (NewRangeMap RT VT sz) (exclusions excl) = Some r ->
  tracks excl r.
Proof.
  induction excl as [|[s e] excl IH] using rev_ind; intros r Hlow Hcap Hrun.
  - injection Hrun as <-. apply NewRangeMap_tracks.
  - apply Forall_app in Hlow as [Hlow Hse].
    inversion Hse as [|? ? Hse1 _]; subst.
    rewrite len_app in Hcap. change (len [_]) with 1 in Hcap.
    unfold exclusions in Hrun. rewrite map_app, run_ok_app in Hrun.
    fold (exclusions excl) in Hrun.
    destruct (run_ok (NewRangeMap RT VT sz) (exclusions excl)) as [r1|] eqn:H1;
      [|discriminate].
    cbn [mbind option_bind map fst snd] in Hrun.
    apply run_ok_exclude in Hrun as (r2 & Hex & [= <-]).
    destruct (lower_half_ops excl Hlow) as [Hwf Hnw].
    destruct (run_ok_reached _ sz r1 Hwf Hnw H1) as (Hb & Hr & Hh).
    pose proof (run_ok_size _ sz r1 H1) as Hsize.
    apply (ExcludeRange_tracks excl r1 s e); try assumption.
    + apply Hb.
    + apply IH; [exact Hlow | lia | reflexivity].
    + pose proof (modulus_half RT). lia.
    + lia.
Qed.

End Tracking.

(** X13. Lookups agree with the exclusions.  On a fresh map whose capacity,
    as [NewRangeMap] stores it, is at least the number of exclusions, after
    accepted exclusions each of
    which starts above 0, has [startInclusive < endExclusive] and ends at
    or below [halfRange], [GetValue] answers every key of the key type as
    the list of exclusions says: [errKeyExcluded] when the key lies in one
    of the excluded ranges, and otherwise the total width of the excluded
    ranges that end at or below the key, modulo [2^W] of the value type. *)
Theorem GetValue_matches_exclusions RT VT (sz : Z) (excl : list (Z * Z))
    (r : RangeMap RT VT) (key : Z) :
  Forall (in_lower_half RT) excl ->
  len excl <= size (NewRangeMap RT VT sz) ->
  run_ok (NewRangeMap RT VT sz) (exclusions excl) = Some r ->
  in_range RT key ->
  GetValue r key =
    if is_excluded excl key then Some (0, Some errKeyExcluded)
    else Some (wrap VT (width_below excl key), None).
Proof.
  intros Hlow Hcap Hrun Hk.
  destruct (lower_half_ops (VT := VT) excl Hlow) as [Hwf Hnw].
  destruct (run_ok_reached _ sz r Hwf Hnw Hrun) as (Hb & [Hf Hc] & Hh).
  destruct (run_ok_tracks sz excl r Hlow Hcap Hrun)
    as [_ (x & Hx & Hx0) Th Tc To].
  destruct (index_last_is_Some _ (alive_nonempty _ Hb)) as (lr & _ & Hlast).
  assert (Hn : chain (narrow (halfRange r)) (ranges r)).
  { apply (chain_impl_lookup before); [exact Hc|].
    intros i a b Ha Hb' [Hab1 Hab2].
    pose proof (proj1 (Forall_lookup _ _) Th (S i) b Hb') as Hbh.
    destruct (proj1 (Forall_lookup _ _) Hf i a Ha) as ([Ha0 _] & _).
    simpl in Hbh. split; lia. }
  destruct (GetValue_found r key (alive_nonempty _ Hb) Hf Hn Hk)
    as (v & err & Hv & Hnf).
  rewrite Hv.
  destruct (GetValue_outcome r lr x key v err Hlast Hx Hv)
    as [(-> & Hge & ->)
       |[(-> & Hlt & i & rv & Hi & Hlen & -> & Hin)
        |[(-> & -> & Hold)
         |[(-> & -> & m & rp & rv & Hrp & Hrv & Hg)
          |(-> & _)]]]].
  - destruct (To lr key Hlast Hge) as [-> ->]. reflexivity.
  - destruct (lookup_lt_is_Some_2 (ranges r) (S i) Hlen) as [rn Hrn].
    destruct (proj1 (chain_lookup before _) Hc i rv rn Hi Hrn) as [Hle _].
    assert (Hkin : start rv <= key <= end_ rv).
    { apply (in_closed_sound r key rv); try assumption; try lia.
      exact (proj1 (Forall_lookup _ _) Hf i rv Hi). }
    destruct (proj1 (chain_lookup (agrees VT excl) _) Tc i rv rn Hi Hrn)
      as [Ha _].
    destruct (Ha key Hkin) as [-> ->]. reflexivity.
  - unfold in_range in Hk. lia.
  - destruct (proj1 (chain_lookup before _) Hc m rp rv Hrp Hrv) as [_ Hlt].
    assert (Hkin : end_ rp < key < start rv).
    { apply (in_gap_sound r key rp rv); try assumption; try lia.
      - exact (proj1 (Forall_lookup _ _) Hf m rp Hrp).
      - exact (proj1 (Forall_lookup _ _) Hf (S m) rv Hrv). }
    destruct (proj1 (chain_lookup (agrees VT excl) _) Tc m rp rv Hrp Hrv)
      as [_ Hg'].
    now rewrite (Hg' key Hkin).
  - congruence.
Qed.

Lemma GetValue_matches_exclusions_witness :
  GetValue (mkRangeMap (RT := U32) (VT := U32) 2147483648 3
              [ {| start := 0; end_ := 4; value := 0 |};
                {| start := 15; end_ := 19; value := 10 |};
                {| start := 25; end_ := 0; value := 15 |} ]) 17
  = (if is_excluded [(5, 10); (10, 15); (20, 25)] 17
     then Some (0, Some errKeyExcluded)
     else Some (wrap U32 (width_below [(5, 10); (10, 15); (20, 25)] 17),
                None)).
Proof.
  apply (GetValue_matches_exclusions U32 U32 3
           [(5, 10); (10, 15); (20, 25)]).
  - repeat constructor; vm_compute; congruence.
  - vm_compute. congruence.
  - vm_compute. reflexivity.
  - vm_compute. split; congruence.
Defined.

(** ** Keys below the retained ranges *)

(** X14. An exclusion that starts where tracking starts is reported as too
    old, not as excluded: on a map with a single range (fresh or just
    reset), after an accepted [ExcludeRange] starting at the start of that
    range, [GetValue] fails with [errKeyTooOld] for every key below
    [endExclusive], the excluded keys included. *)
Theorem leading_exclusion_is_too_old RT VT (r r' : RangeMap RT VT) lr
    (e : Z) :
  ranges r = [lr] ->
  ExcludeRange r (start lr) e = Some (r', None) ->
  forall key, key < e -> GetValue r' key = Some (0, Some errKeyTooOld).
Proof.
  intros E Hex key Hk.
  rewrite (ExcludeRange_snoc r [] lr (start lr) e E) in Hex.
  destruct (_ || _); [discriminate|].
  destruct (start lr >? start lr); [discriminate|].
  rewrite Z.eqb_refl in Hex. cbv zeta in Hex. injection Hex as <-.
  match goal with
  | |- GetValue (set_ranges r [?o]) _ = _ =>
      rewrite (GetValue_snoc (set_ranges r [o]) [] o key eq_refl)
  end.
  cbn [start app].
  destruct (Z.geb_spec key e); [lia|].
  cbn [lookup list_lookup mbind option_bind start].
  destruct (Z.ltb_spec key e); [reflexivity | lia].
Qed.

Lemma leading_exclusion_is_too_old_witness :
  GetValue (mkRangeMap (RT := U32) (VT := U32) 2147483648 2
              [ {| start := 10; end_ := 0; value := 10 |} ]) 5
  = Some (0, Some errKeyTooOld).
Proof.
  apply (leading_exclusion_is_too_old U32 U32 (NewRangeMap U32 U32 2)
           _ {| start := 0; end_ := 0; value := 0 |} 10).
  - reflexivity.
  - vm_compute. reflexivity.
  - lia.
Defined.

(** X15. After accepted calls none of which runs over the end of the key
    space, whatever the capacity and however many ranges were pruned,
    [GetValue] fails with [errKeyTooOld] for every key below the start of
    the oldest retained range. *)
Theorem below_oldest_is_too_old RT VT (sz : Z) (ops : list op)
    (r : RangeMap RT VT) oldest (key : Z) :
  Forall (wf_op RT VT) ops -> Forall no_wrap ops ->
  run_ok (NewRangeMap RT VT sz) ops = Some r ->
  ranges r !! 0%nat = Some oldest -> key < start oldest ->
  GetValue r key = Some (0, Some errKeyTooOld).
Proof.
  intros Hwf Hnw Hrun H0 Hk.
  destruct (run_ok_reached ops sz r Hwf Hnw Hrun) as (Hb & [_ Hc] & _).
  destruct (snoc_inv _ (alive_nonempty _ Hb)) as (pre & lr & E).
  assert (Hlr : ranges r !! length pre = Some lr)
    by (rewrite E; now apply list_lookup_middle).
  pose proof (chain_before_start_le _ Hc (length pre) 0 oldest lr
                ltac:(lia) H0 Hlr) as Hle.
  rewrite (GetValue_snoc r pre lr key E), <- E, H0.
  cbn [mbind option_bind].
  destruct (Z.geb_spec key (start lr)); [lia|].
  destruct (Z.ltb_spec key (start oldest)); [reflexivity | lia].
Qed.

Lemma below_oldest_is_too_old_witness :
  GetValue (mkRangeMap (RT := U32) (VT := U32) 2147483648 1
              [ {| start := 4; end_ := 9; value := 2 |};
                {| start := 11; end_ := 0; value := 3 |} ]) 3
  = Some (0, Some errKeyTooOld).
Proof.
  apply (below_oldest_is_too_old U32 U32 1
           [OpExclude 1 2; OpExclude 3 4; OpExclude 10 11] _
           {| start := 4; end_ := 9; value := 2 |}).
  - repeat constructor; vm_compute; congruence.
  - repeat constructor.
  - vm_compute. reflexivity.
  - reflexivity.
  - simpl. lia.
Defined.

(** ** Values and gaps *)

Section ValueStep.
Context {RT VT : uintType}.
Implicit Type r : RangeMap RT VT.

Lemma apply_op_value_step r o r' :
  ranges r <> [] -> raw_ordered r -> chain (value_step VT) (ranges r) ->
  wf_op RT VT o -> no_wrap o -> no_dec o ->
  apply_op r o = Some (r', None) ->
  chain (value_step VT) (ranges r').
Proof.
  intros Hne [Hf _] Hc Hwf Hnw Hnd.
  destruct (snoc_inv _ Hne) as (pre & lr & E).
  rewrite E in Hf, Hc.
  destruct (Forall_snoc_inv _ _ _ Hf) as [_ (Hst & _ & _)].
  destruct o as [val|dec|s e|key]; simpl in *.
  - intros [= <-]. simpl. tauto.
  - contradiction.
  - destruct Hwf as [Hs He]. intros Hex.
    destruct (ExcludeRange_returns r pre lr s e r' None E Hex)
      as [[? _]|(_ & _ & _ & Ht & -> & _)]; [discriminate|].
    unfold after_exclude.
    assert (Hw : wrap RT (e - s) = e - s)
      by (apply wrap_small; unfold in_range in *; lia).
    destruct (Z.eqb_spec (start lr) s) as [Heq|Hneq]; cbn [ranges set_ranges].
    + eapply chain_change_last; [exact Hc|].
      unfold value_step, opened. cbn [value start]. intros p ->.
      rewrite Hw, wrap_add_wrap, wrap_wrap_add. f_equal. lia.
    + apply chain_drop, chain_snoc.
      * eapply chain_change_last; [exact Hc|]. intros p Hp. exact Hp.
      * unfold value_step, opened, closed_at. cbn [value start end_].
        rewrite Hw, wrap_add_wrap.
        rewrite (wrap_small RT (s - 1)) by (unfold in_range in *; lia).
        f_equal. lia.
  - destruct (GetValue r key); simpl; [|discriminate].
    intros [= <-]. now rewrite E.
Qed.

Lemma run_ok_value_step ops : forall r r',
  alive r -> raw_ordered r -> chain (value_step VT) (ranges r) ->
  Forall (wf_op RT VT) ops -> Forall no_wrap ops -> Forall no_dec ops ->
  run_ok r ops = Some r' ->
  chain (value_step VT) (ranges r').
Proof.
  induction ops as [|o ops IH]; intros r r' Hb Hr Hc Hwf Hnw Hnd; simpl.
  - intros [= <-]. exact Hc.
  - inversion Hwf as [|? ? Hwf1 Hwf2]; subst.
    inversion Hnw as [|? ? Hnw1 Hnw2]; subst.
    inversion Hnd as [|? ? Hnd1 Hnd2]; subst.
    destruct (apply_op r o) as [[r1 [err|]]|] eqn:Hstep; simpl;
      try discriminate.
    destruct (apply_op_alive r o r1 None Hb Hstep) as (Hb1 & _).
    apply IH; try assumption.
    + exact (apply_op_raw_ordered r o r1 (alive_nonempty _ Hb) Hr
               Hwf1 Hnw1 Hstep).
    + exact (apply_op_value_step r o r1 (alive_nonempty _ Hb) Hr Hc
               Hwf1 Hnw1 Hnd1 Hstep).
Qed.

End ValueStep.

(** X16. After accepted resets and exclusions none of which runs over the
    end of the key space, and no [DecValue], the value of each range is the
    value of the range before it plus the number of keys excluded between
    the two, [start - previous end - 1], modulo [2^W] of the value type;
    this holds with merges and after pruning. *)
Theorem value_grows_by_gap RT VT (sz : Z) (ops : list op)
    (r : RangeMap RT VT) :
  Forall (wf_op RT VT) ops -> Forall no_wrap ops -> Forall no_dec ops ->
  run_ok (NewRangeMap RT VT sz) ops = Some r ->
  forall (i : nat) a b,
    ranges r !! i = Some a -> ranges r !! S i = Some b ->
    value b = wrap VT (value a + (start b - end_ a - 1)).
Proof.
  intros Hwf Hnw Hnd Hrun.
  apply (chain_lookup (value_step VT)).
  apply (run_ok_value_step ops (NewRangeMap RT VT sz));
    try assumption;
    [apply NewRangeMap_alive | apply NewRangeMap_raw_ordered | simpl; tauto].
Qed.

Lemma value_grows_by_gap_witness :
  value {| start := 25; end_ := 0; value := 19 |}
  = wrap U32 (value {| start := 4; end_ := 9; value := 4 |}
              + (start {| start := 25; end_ := 0; value := 19 |}
                 - end_ {| start := 4; end_ := 9; value := 4 |} - 1)).
Proof.
  apply (value_grows_by_gap U32 U32 1
           [OpExclude 1 2; OpReset 0; OpExclude 0 4; OpExclude 10 15;
            OpExclude 15 25]
           (mkRangeMap 2147483648 1
              [ {| start := 4; end_ := 9; value := 4 |};
                {| start := 25; end_ := 0; value := 19 |} ])
           ltac:(repeat constructor; vm_compute; congruence)
           ltac:(repeat constructor) ltac:(repeat constructor)
           ltac:(vm_compute; reflexivity) 0%nat); reflexivity.
Defined.
